(** * S3 storage inventory scripts: aggregation, lifecycle matching, costing

    A shallow embedding of [s3/all_details_bucket.py],
    [s3/lifecycle_rules.py] and [s3/all_s3_top.py].  Python dictionaries are insertion-ordered
    association lists (the order is what [sorted] and the report rows
    see); their contents, as compared by Python's [==], are the finite
    maps obtained with [list_to_map].  Byte counts are unbounded integers.
    Floating-point values are IEEE binary64 numbers, taken from the
    standard library's executable specification [SpecFloat]. *)

From Stdlib Require Import ZArith Lia String Ascii List Permutation Sorted.
From Stdlib Require Import Floats.SpecFloat.
From stdpp Require Import base option list strings pretty gmap fin_maps.

Local Open Scope string_scope.
Local Open Scope Z_scope.

(** ** Python strings: [split], [join], [startswith] *)

(** [s.split(sep)] for a one-character separator. *)
Fixpoint split (sep : ascii) (s : string) : list string :=
  match s with
  | EmptyString => [EmptyString]
  | String c s' =>
      if Ascii.eqb c sep then EmptyString :: split sep s'
      else match split sep s' with
           | [] => [String c EmptyString]
           | w :: ws => String c w :: ws
           end
  end.

(** [sep.join(parts)]. *)
Fixpoint join (sep : string) (parts : list string) : string :=
  match parts with
  | [] => EmptyString
  | [w] => w
  | w :: ws => w ++ sep ++ join sep ws
  end.

(** [s.startswith(p)]. *)
Definition startswith (s p : string) : bool := String.prefix p s.

(** A string without the character [c]. *)
Fixpoint lacks (c : ascii) (s : string) : Prop :=
  match s with
  | EmptyString => True
  | String c' s' => c' <> c /\ lacks c s'
  end.

(** ** Python dictionaries in insertion order *)

(** [dict K V] lists the items in insertion order; keys are strings. *)
Definition dict (V : Type) : Type := list (string * V).

(** [d.get(k)]. *)
Fixpoint dict_get {V} (d : dict V) (k : string) : option V :=
  match d with
  | [] => None
  | (k', v) :: d' => if String.eqb k' k then Some v else dict_get d' k
  end.

(** [d[k] = f(d[k])] on a [defaultdict] whose factory yields [dflt]: an
    existing key is updated in place, a missing one is created at the end. *)
Fixpoint dd_update {V} (dflt : V) (f : V -> V) (k : string) (d : dict V)
  : dict V :=
  match d with
  | [] => [(k, f dflt)]
  | (k', v) :: d' =>
      if String.eqb k' k then (k', f v) :: d'
      else (k', v) :: dd_update dflt f k d'
  end.

(** [d[k] += n] on a [defaultdict(int)]. *)
Definition dd_add (k : string) (n : Z) (d : dict Z) : dict Z :=
  dd_update 0 (fun x => x + n) k d.

Definition keys {V} (d : dict V) : list string := map fst d.
Definition values {V} (d : dict V) : list V := map snd d.

(** [sum(d.values())]. *)
Definition sum_values (d : dict Z) : Z := fold_right Z.add 0 (values d).

(** ** Data of [all_details_bucket.py] *)

(** One entry of a listing's [Contents]. *)
Record ObjectRecord := {
  Key : string;
  Size : Z;
  obj_StorageClass : option string
}.

(** The value type of [prefix_details]:
    [{'TotalSize': 0, 'StorageClass': defaultdict(int)}]. *)
Record PrefixDetail := {
  TotalSize : Z;
  StorageClass : dict Z
}.

Definition new_detail : PrefixDetail :=
  {| TotalSize := 0; StorageClass := [] |}.

Definition add_TotalSize (n : Z) (d : PrefixDetail) : PrefixDetail :=
  {| TotalSize := TotalSize d + n; StorageClass := StorageClass d |}.

Definition add_StorageClass (sc : string) (n : Z) (d : PrefixDetail)
  : PrefixDetail :=
  {| TotalSize := TotalSize d; StorageClass := dd_add sc n (StorageClass d) |}.

(** ** [calculate_storage_class_data] *)

(** ['/'.join(key.split('/')[:-1]) + '/'] *)
Definition prefix_path (key : string) : string :=
  join "/" (removelast (split "/" key)) ++ "/".

Definition aggregates : Type := dict Z * dict PrefixDetail.

(** The body of the loop over [objects]. *)
Definition aggregate_step (st : aggregates) (obj : ObjectRecord) : aggregates :=
  let '(storage_class_data, prefix_details) := st in
  let storage_class := default "STANDARD" (obj_StorageClass obj) in
  let size := Size obj in
  let storage_class_data := dd_add storage_class size storage_class_data in
  let p := prefix_path (Key obj) in
  let prefix_details :=
    dd_update new_detail (add_TotalSize size) p prefix_details in
  let prefix_details :=
    dd_update new_detail (add_StorageClass storage_class size) p prefix_details in
  (storage_class_data, prefix_details).

Definition calculate_storage_class_data (objects : list ObjectRecord)
  : aggregates :=
  fold_left aggregate_step objects ([], []).

(** ** The merge loop of [main] *)

(** [for storage_class, size in storage_class_data.items():
       total_storage_class_data[storage_class] += size] *)
Definition merge_storage_class_data (total scd : dict Z) : dict Z :=
  fold_left (fun tot '(sc, size) => dd_add sc size tot) scd total.

(** [for prefix, details in prefix_details.items(): ...] *)
Definition merge_prefix_details (all pd : dict PrefixDetail)
  : dict PrefixDetail :=
  fold_left
    (fun all '(p, details) =>
       let all := dd_update new_detail (add_TotalSize (TotalSize details)) p all in
       fold_left
         (fun all '(sc, size) =>
            dd_update new_detail (add_StorageClass sc size) p all)
         (StorageClass details) all)
    pd all.

(** One iteration of [for prefix in prefixes], given the objects that the
    listing returned for that prefix. *)
Definition merge_batch (st : aggregates) (objects : list ObjectRecord)
  : aggregates :=
  let '(storage_class_data, prefix_details) :=
    calculate_storage_class_data objects in
  (merge_storage_class_data (fst st) storage_class_data,
   merge_prefix_details (snd st) prefix_details).

Definition main_aggregate (batches : list (list ObjectRecord)) : aggregates :=
  fold_left merge_batch batches ([], []).

(** The contents of the dictionaries, as Python's [==] compares them. *)
Definition contents (d : dict Z) : gmap string Z := list_to_map d.

Definition detail_contents (d : PrefixDetail) : Z * gmap string Z :=
  (TotalSize d, contents (StorageClass d)).

Definition prefix_contents (pd : dict PrefixDetail)
  : gmap string (Z * gmap string Z) :=
  list_to_map (prod_map id detail_contents <$> pd).

Definition aggregate_contents (st : aggregates)
  : gmap string Z * gmap string (Z * gmap string Z) :=
  (contents (fst st), prefix_contents (snd st)).

(** ** Python floats and exceptions *)

Inductive exn := OverflowError | ZeroDivisionError | ValueError | IndexError.

Inductive result (A : Type) :=
  | Ok (a : A)
  | Raise (e : exn).
Arguments Ok {A} a.
Arguments Raise {A} e.

#[global] Instance result_ret : MRet result := fun A => @Ok A.

#[global] Instance result_bind : MBind result := fun A B k r =>
  match r with
  | Ok a => k a
  | Raise e => Raise e
  end.

(** A Python [float] is an IEEE binary64 number. *)
Abbreviation float := spec_float.
Definition prec : Z := 53.
Definition emax : Z := 1024.

Definition is_finite (x : float) : bool :=
  match x with
  | S754_zero _ | S754_finite _ _ _ => true
  | S754_infinity _ | S754_nan => false
  end.

(** The integer [n] as the pair mantissa, exponent 0; exact, and a float
    only once an operation has rounded it. *)
Definition exact_int (n : Z) : float :=
  match n with
  | Z0 => S754_zero false
  | Zpos p => S754_finite false p 0
  | Zneg p => S754_finite true p 0
  end.

(** [a / b] on ints: the quotient rounded once, to nearest even;
    [OverflowError] when it is too large for a float. *)
Definition int_truediv (a b : Z) : result float :=
  if b =? 0 then Raise ZeroDivisionError
  else
    let q := SFdiv prec emax (exact_int a) (exact_int b) in
    if is_finite q then Ok q else Raise OverflowError.

(** The literal [n / 10**places] written in decimal, e.g. [0.023]: the
    nearest float. *)
Definition decimal (n : Z) (places : nat) : float :=
  SFdiv prec emax (exact_int n) (exact_int (10 ^ Z.of_nat places)).

(** The integer nearest to [a / b], ties to even, for [0 < b]. *)
Definition div_half_even (a b : Z) : Z :=
  let q := a / b in
  let r := a mod b in
  match 2 * r ?= b with
  | Lt => q
  | Gt => q + 1
  | Eq => if Z.even q then q else q + 1
  end.

(** [round(x, ndigits)] for [0 <= ndigits]: the exact value of [x] is
    rounded half-even to [ndigits] decimals, and the decimal is read back
    as the nearest float.  Zeros, infinities and nans round to themselves. *)
Definition py_round (x : float) (ndigits : nat) : float :=
  match x with
  | S754_finite s m e =>
      let scale := 10 ^ Z.of_nat ndigits in
      let q := if 0 <=? e then Zpos m * 2 ^ e * scale
               else div_half_even (Zpos m * scale) (2 ^ (- e)) in
      match q with
      | Zpos p => SFdiv prec emax (S754_finite s p 0) (exact_int scale)
      | _ => S754_zero s
      end
  | _ => x
  end.




(** ** [calculate_cost] *)

Definition STORAGE_CLASS_PRICING : dict float :=
  [ ("STANDARD", decimal 23 3);
    ("INTELLIGENT_TIERING", decimal 23 3);
    ("STANDARD_IA", decimal 125 4);
    ("ONEZONE_IA", decimal 1 2);
    ("GLACIER", decimal 4 3);
    ("DEEP_ARCHIVE", decimal 99 5) ].

(** [d[k] = v] on a plain dictionary. *)
Definition dict_set {V} (k : string) (v : V) (d : dict V) : dict V :=
  dd_update v (fun _ => v) k d.

(** [STORAGE_CLASS_PRICING.get(storage_class, 0)]; the default is the int
    [0], which the product with a float takes as [0.0]. *)
Definition cost_per_gb (storage_class : string) : float :=
  default (exact_int 0) (dict_get STORAGE_CLASS_PRICING storage_class).

Definition calculate_cost (storage_class_data : dict Z) : result (dict float) :=
  fold_left
    (fun acc '(storage_class, size) =>
       storage_class_cost ← acc;
       gb ← int_truediv size (1024 ^ 3);
       let cost := SFmul prec emax (cost_per_gb storage_class) gb in
       Ok (dict_set storage_class (py_round cost 2) storage_class_cost))
    storage_class_data (Ok []).

(** ** Lifecycle rules, as [get_bucket_lifecycle_configuration] returns them *)

Record Transition := {
  tr_Days : option Z;
  tr_StorageClass : option string
}.

Record ExpirationAction := {
  exp_Days : option Z;
  exp_ExpiredObjectDeleteMarker : option bool
}.

Record NoncurrentExpiration := {
  nce_NoncurrentDays : option Z
}.

(** The composite filter ['And']: a prefix and tag conditions. *)
Record AndOperator := {
  and_Prefix : option string;
  and_Tags : list (string * string)
}.

Record LifecycleFilter := {
  flt_Prefix : option string;
  flt_Tag : option (string * string);
  flt_And : option AndOperator
}.

(** A rule is a dictionary; a key that may be missing is an [option]. *)
Record LifecycleRule := {
  ID : option string;
  Filter : option LifecycleFilter;
  Status : option string;
  Transitions : option (list Transition);
  Expiration : option ExpirationAction;
  NoncurrentVersionExpiration : option NoncurrentExpiration
}.

(** ** [get_lifecycle_for_prefix] *)

(** ['Prefix' in d and prefix.startswith(d['Prefix'])] *)
Definition prefix_key_matches (prefix : string) (key : option string) : bool :=
  match key with
  | Some p => startswith prefix p
  | None => false
  end.

Definition get_lifecycle_for_prefix (prefix : string)
    (lifecycle_policies : list LifecycleRule) : list LifecycleRule :=
  fold_left
    (fun applicable_policies policy =>
       match Filter policy with
       | Some filter =>
           if prefix_key_matches prefix (flt_Prefix filter)
           then (applicable_policies ++ [policy])%list
           else if match flt_And filter with
                   | Some both => prefix_key_matches prefix (and_Prefix both)
                   | None => false
                   end
           then (applicable_policies ++ [policy])%list
           else applicable_policies
       | None => (applicable_policies ++ [policy])%list
       end)
    lifecycle_policies [].

(** ** Rows of the lifecycle sheets *)

(** A spreadsheet cell: text such as ['N/A'], or a number. *)
Inductive cell :=
  | Text (s : string)
  | Number (n : Z).

Definition NA : cell := Text "N/A".

Record SummaryRow := {
  row_Bucket : string;
  row_ID : cell;
  row_Prefix : cell;
  row_Status : cell;
  row_TransitionDays : cell;
  row_StorageClass : cell;
  row_ExpirationDays : cell;
  row_DeleteMarker : cell
}.

(** [d.get(key, 'N/A')] for a text and for a number. *)
Definition text_or_NA (o : option string) : cell := default NA (Text <$> o).
Definition number_or_NA (o : option Z) : cell := default NA (Number <$> o).

(** [rule.get('Filter', {}).get('Prefix', 'N/A')] *)
Definition filter_prefix_cell (rule : LifecycleRule) : cell :=
  text_or_NA (f ← Filter rule; flt_Prefix f).

Definition set_transition (t : Transition) (r : SummaryRow) : SummaryRow :=
  {| row_Bucket := row_Bucket r; row_ID := row_ID r;
     row_Prefix := row_Prefix r; row_Status := row_Status r;
     row_TransitionDays := number_or_NA (tr_Days t);
     row_StorageClass := text_or_NA (tr_StorageClass t);
     row_ExpirationDays := row_ExpirationDays r;
     row_DeleteMarker := row_DeleteMarker r |}.

Definition set_expiration (e : ExpirationAction) (r : SummaryRow) : SummaryRow :=
  {| row_Bucket := row_Bucket r; row_ID := row_ID r;
     row_Prefix := row_Prefix r; row_Status := row_Status r;
     row_TransitionDays := row_TransitionDays r;
     row_StorageClass := row_StorageClass r;
     row_ExpirationDays := number_or_NA (exp_Days e);
     row_DeleteMarker :=
       if default false (exp_ExpiredObjectDeleteMarker e)
       then Text "Yes" else row_DeleteMarker r |}.

(** [summarize_lifecycle_rules] of [all_details_bucket.py]: the one
    [rule_summary] of a rule is overwritten by each transition in turn and
    appended once, after the loop over the transitions. *)
Definition summarize_lifecycle_rules (bucket_name : string)
    (lifecycle_rules : list LifecycleRule) : list SummaryRow :=
  fold_left
    (fun summary rule =>
       let rule_summary :=
         {| row_Bucket := bucket_name;
            row_ID := text_or_NA (ID rule);
            row_Prefix := filter_prefix_cell rule;
            row_Status := text_or_NA (Status rule);
            row_TransitionDays := NA;
            row_StorageClass := NA;
            row_ExpirationDays := NA;
            row_DeleteMarker := Text "No" |} in
       let rule_summary :=
         match Transitions rule with
         | Some transitions =>
             fold_left (fun r t => set_transition t r) transitions rule_summary
         | None => rule_summary
         end in
       let rule_summary :=
         match Expiration rule with
         | Some e => set_expiration e rule_summary
         | None => rule_summary
         end in
       (summary ++ [rule_summary])%list)
    lifecycle_rules [].

(** [parse_lifecycle_rule] of [lifecycle_rules.py]. *)
Definition parse_lifecycle_rule (rule : LifecycleRule)
  : list (cell * cell) * cell * cell :=
  let transitions := default [] (Transitions rule) in
  let transition_details :=
    map (fun t => (number_or_NA (tr_Days t), text_or_NA (tr_StorageClass t)))
        transitions in
  let expiration_days := number_or_NA (e ← Expiration rule; exp_Days e) in
  let delete_marker_days :=
    number_or_NA (d ← NoncurrentVersionExpiration rule; nce_NoncurrentDays d) in
  (transition_details, expiration_days, delete_marker_days).

(** The rows that [write_lifecycle_details_to_excel] of
    [lifecycle_rules.py] builds for one rule of one bucket. *)
Definition lifecycle_detail_rows_of_rule (bucket_name : string)
    (rule : LifecycleRule) : list SummaryRow :=
  let '(transition_details, expiration_days, delete_marker_days) :=
    parse_lifecycle_rule rule in
  let row days class :=
    {| row_Bucket := bucket_name;
       row_ID := text_or_NA (ID rule);
       row_Prefix := filter_prefix_cell rule;
       row_Status := text_or_NA (Status rule);
       row_TransitionDays := days;
       row_StorageClass := class;
       row_ExpirationDays := expiration_days;
       row_DeleteMarker := delete_marker_days |} in
  match transition_details with
  | [] => [row NA NA]
  | _ => map (fun '(days, class) => row days class) transition_details
  end.

Definition lifecycle_detail_rows (bucket_details : dict (list LifecycleRule))
  : list SummaryRow :=
  flat_map
    (fun '(bucket_name, rules) =>
       flat_map (lifecycle_detail_rows_of_rule bucket_name) rules)
    bucket_details.

(** ** The ranking step of [main] *)

(** Insertion into a list sorted by decreasing key, ahead of the items
    whose key is not larger. *)
Fixpoint insert_desc {A} (key : A -> Z) (x : A) (l : list A) : list A :=
  match l with
  | [] => [x]
  | y :: l' => if key x <? key y then y :: insert_desc key x l'
               else x :: y :: l'
  end.

(** [sorted(l, key=key, reverse=True)]: stable, items with equal keys stay
    in their input order. *)
Definition sorted_reverse {A} (key : A -> Z) (l : list A) : list A :=
  fold_right (insert_desc key) [] l.

(** [l[:n]]; a negative [n] counts from the end. *)
Definition slice_to {A} (n : Z) (l : list A) : list A :=
  if 0 <=? n then firstn (Z.to_nat n) l
  else firstn (length l - Z.to_nat (- n))%nat l.

(** [dict(items)] *)
Definition dict_of_items {V} (items : list (string * V)) : dict V :=
  fold_left (fun d '(k, v) => dict_set k v d) items [].

Definition sorted_prefix_details (all_prefix_details : dict PrefixDetail)
  : list (string * PrefixDetail) :=
  sorted_reverse (fun item => TotalSize (snd item)) all_prefix_details.

Definition top_prefix_details (all_prefix_details : dict PrefixDetail)
    (top_n : Z) : dict PrefixDetail :=
  dict_of_items (slice_to top_n (sorted_prefix_details all_prefix_details)).

(** ** Quantities of the aggregation invariants *)

(** [d.get(sc, 0)]: the bytes a dictionary records for a class. *)
Definition bytes_of (d : dict Z) (sc : string) : Z :=
  default 0 (dict_get d sc).

(** The sum of [h] over the values of a dictionary. *)
Definition sum_over {V} (h : V -> Z) (d : dict V) : Z :=
  fold_right (fun item acc => h (snd item) + acc) 0 d.

(** A prefix aggregate is consistent when its total is the sum of its
    per-class bytes. *)
Definition detail_consistent (d : PrefixDetail) : Prop :=
  TotalSize d = sum_values (StorageClass d).

(** The invariants of a pair of aggregates: every prefix aggregate is
    consistent, the global bytes of a class are the sum of the class's bytes
    over the prefixes, and the totals of the prefixes add up to the global
    bytes. *)
Definition aggregates_consistent (st : aggregates) : Prop :=
  Forall (fun item => detail_consistent (snd item)) (snd st) /\
  (forall sc, bytes_of (fst st) sc =
              sum_over (fun d => bytes_of (StorageClass d) sc) (snd st)) /\
  sum_over TotalSize (snd st) = sum_values (fst st).

(** ** Contents of aggregates, merged *)

Definition storage_class_of (obj : ObjectRecord) : string :=
  default "STANDARD" (obj_StorageClass obj).

(** Class by class addition of byte counts. *)
Definition merge_bytes (m1 m2 : gmap string Z) : gmap string Z :=
  union_with (fun x y => Some (x + y)) m1 m2.

(** Prefix by prefix addition of totals and of per-class byte counts. *)
Definition merge_details (m1 m2 : gmap string (Z * gmap string Z))
  : gmap string (Z * gmap string Z) :=
  union_with (fun a b => Some (fst a + fst b, merge_bytes (snd a) (snd b)))
             m1 m2.

(** What one record contributes to the global and to the per-prefix map. *)
Definition record_bytes (obj : ObjectRecord) : gmap string Z :=
  {[ storage_class_of obj := Size obj ]}.

Definition record_details (obj : ObjectRecord)
  : gmap string (Z * gmap string Z) :=
  {[ prefix_path (Key obj) := (Size obj, record_bytes obj) ]}.

(** The contributions of a collection of records, added up. *)
Definition total_contents (objects : list ObjectRecord)
  : gmap string Z * gmap string (Z * gmap string Z) :=
  fold_right
    (fun obj acc => (merge_bytes (record_bytes obj) (fst acc),
                     merge_details (record_details obj) (snd acc)))
    (∅, ∅) objects.

(** Python dictionaries have no repeated key: the global map, the map of
    prefixes and every per-class map inside it. *)
Definition well_keyed (st : aggregates) : Prop :=
  NoDup (keys (fst st)) /\
  NoDup (keys (snd st)) /\
  Forall (fun item => NoDup (keys (StorageClass (snd item)))) (snd st).

(** ** Sample data *)

(** The three objects of the end-to-end scenario. *)
Definition obj_a1 : ObjectRecord :=
  {| Key := "a/1.txt"; Size := 100; obj_StorageClass := Some "STANDARD" |}.
Definition obj_a2 : ObjectRecord :=
  {| Key := "a/2.txt"; Size := 924; obj_StorageClass := Some "GLACIER" |}.
Definition obj_b1 : ObjectRecord :=
  {| Key := "b/1.txt"; Size := 1024; obj_StorageClass := Some "STANDARD" |}.

(** Decreasing order of a key. *)
Definition key_desc {A} (key : A -> Z) (a b : A) : Prop := key b <= key a.

(** Items ordered by decreasing [TotalSize]. *)
Definition by_size_desc (a b : string * PrefixDetail) : Prop :=
  TotalSize (snd b) <= TotalSize (snd a).

(** Three prefixes with distinct totals. *)
Definition sample_prefix_details : dict PrefixDetail :=
  [ ("a/", {| TotalSize := 10; StorageClass := [("STANDARD", 10)] |});
    ("b/", {| TotalSize := 30; StorageClass := [("GLACIER", 30)] |});
    ("c/", {| TotalSize := 20; StorageClass := [("STANDARD", 20)] |}) ].

(** ** Lifecycle rules and the prefixes of their filters *)

(** The filter prefixes of a rule: the simple ['Prefix'] of its filter and
    the ['Prefix'] of its ['And'], where present. *)
Definition filter_prefixes (rule : LifecycleRule) : list string :=
  match Filter rule with
  | Some f =>
      (option_list (flt_Prefix f) ++
       option_list (a ← flt_And f; and_Prefix a))%list
  | None => []
  end.

(** A rule applies to a prefix when it has no filter prefix, or one of its
    filter prefixes starts the prefix. *)
Definition applies_to (prefix : string) (rule : LifecycleRule) : Prop :=
  filter_prefixes rule = [] \/
  exists p, p ∈ filter_prefixes rule /\ exists rest, prefix = p ++ rest.

(** A filter is present and holds no prefix. *)
Definition prefixless_filter (rule : LifecycleRule) : Prop :=
  is_Some (Filter rule) /\ filter_prefixes rule = [].

(** The test that the loop of [get_lifecycle_for_prefix] makes on a rule. *)
Definition policy_selected (prefix : string) (policy : LifecycleRule) : bool :=
  match Filter policy with
  | Some filter =>
      prefix_key_matches prefix (flt_Prefix filter) ||
      match flt_And filter with
      | Some both => prefix_key_matches prefix (and_Prefix both)
      | None => false
      end
  | None => true
  end.

Definition no_filter : LifecycleFilter :=
  {| flt_Prefix := None; flt_Tag := None; flt_And := None |}.

(** A rule for the whole bucket, written with an empty filter. *)
Definition rule_empty_filter : LifecycleRule :=
  {| ID := Some "expire-all"; Filter := Some no_filter;
     Status := Some "Enabled"; Transitions := None;
     Expiration := Some {| exp_Days := Some 365;
                           exp_ExpiredObjectDeleteMarker := None |};
     NoncurrentVersionExpiration := None |}.

(** A rule whose filter is a tag only. *)
Definition rule_tag_filter : LifecycleRule :=
  {| ID := Some "by-tag";
     Filter := Some {| flt_Prefix := None; flt_Tag := Some ("env", "prod");
                       flt_And := None |};
     Status := Some "Enabled"; Transitions := None; Expiration := None;
     NoncurrentVersionExpiration := None |}.

(** A rule for the prefix [logs/]. *)
Definition rule_logs : LifecycleRule :=
  {| ID := Some "logs";
     Filter := Some {| flt_Prefix := Some "logs/"; flt_Tag := None;
                       flt_And := None |};
     Status := Some "Enabled"; Transitions := None; Expiration := None;
     NoncurrentVersionExpiration := None |}.

(** A rule without the key ['Filter']. *)
Definition rule_unfiltered : LifecycleRule :=
  {| ID := Some "bucket-wide"; Filter := None; Status := Some "Enabled";
     Transitions := None; Expiration := None;
     NoncurrentVersionExpiration := None |}.

(** A rule with two transitions and an expiration. *)
Definition rule_two_transitions : LifecycleRule :=
  {| ID := Some "archive"; Filter := None; Status := Some "Enabled";
     Transitions :=
       Some [ {| tr_Days := Some 30; tr_StorageClass := Some "STANDARD_IA" |};
              {| tr_Days := Some 90; tr_StorageClass := Some "GLACIER" |} ];
     Expiration := Some {| exp_Days := Some 365;
                           exp_ExpiredObjectDeleteMarker := None |};
     NoncurrentVersionExpiration := None |}.

(** The number of rows the lifecycle summary is to hold for a rule: one
    per transition, and one for a rule without transitions. *)
Definition rows_expected (rule : LifecycleRule) : nat :=
  match default [] (Transitions rule) with
  | [] => 1
  | ts => length ts
  end.

(** ** Sums over the records *)

Definition has_class (sc : string) (obj : ObjectRecord) : bool :=
  String.eqb (storage_class_of obj) sc.

Definition has_prefix (p : string) (obj : ObjectRecord) : bool :=
  String.eqb (prefix_path (Key obj)) p.

(** The bytes of the records that pass a test. *)
Definition size_where (test : ObjectRecord -> bool)
    (objects : list ObjectRecord) : Z :=
  fold_right (fun obj acc => if test obj then Size obj + acc else acc)
             0 objects.

(** The aggregate of a prefix, the fresh one when the prefix is absent. *)
Definition detail_of (pd : dict PrefixDetail) (p : string) : PrefixDetail :=
  default new_detail (dict_get pd p).

(** What the merge loop of [main] does to the aggregate of one prefix: it
    adds the total and, class by class, the bytes of the batch's aggregate
    [details]. *)
Definition merge_detail (details d : PrefixDetail) : PrefixDetail :=
  {| TotalSize := TotalSize d + TotalSize details;
     StorageClass :=
       merge_storage_class_data (StorageClass d) (StorageClass details) |}.

(** A rule with at most one transition. *)
Definition at_most_one_transition (rule : LifecycleRule) : Prop :=
  (length (default [] (Transitions rule)) <= 1)%nat.

(** A row without its ['Delete Marker'] cell, the one column that the two
    scripts fill from different keys. *)
Definition without_delete_marker (r : SummaryRow) : SummaryRow :=
  {| row_Bucket := row_Bucket r; row_ID := row_ID r;
     row_Prefix := row_Prefix r; row_Status := row_Status r;
     row_TransitionDays := row_TransitionDays r;
     row_StorageClass := row_StorageClass r;
     row_ExpirationDays := row_ExpirationDays r;
     row_DeleteMarker := NA |}.

(** The rows expected for the rules of all buckets. *)
Definition rows_expected_total (bucket_details : dict (list LifecycleRule))
  : nat :=
  fold_right
    (fun item acc =>
       (fold_right (fun rule acc => rows_expected rule + acc) 0 (snd item)
        + acc)%nat)
    0%nat bucket_details.

(** ** The cost of one class *)

(** [size / (1024**3)] as the division leaves it, an infinity when the
    quotient is too large for a float. *)
Definition gigabytes (size : Z) : float :=
  SFdiv prec emax (exact_int size) (exact_int (1024 ^ 3)).

(** [round(cost_per_gb * (size / (1024**3)), 2)] *)
Definition class_cost (storage_class : string) (size : Z) : float :=
  py_round (SFmul prec emax (cost_per_gb storage_class) (gigabytes size)) 2.

(** ** Paginated listings *)

(** A response of [list_objects_v2]; a key that may be missing is an
    [option]. An entry of ['CommonPrefixes'] is given by its ['Prefix']. *)
Record ListResponse := {
  Contents : option (list ObjectRecord);
  CommonPrefixes : option (list string);
  IsTruncated : option bool;
  NextContinuationToken : option string
}.

(** The client call [s3.list_objects_v2] for one bucket and one choice of
    [Prefix] or [Delimiter]: its argument is the [ContinuationToken], [None]
    for a call without one; it answers [None] when the call raises. *)
Definition list_call : Type := option string -> option ListResponse.

(** [if continuation_token:] passes the token on; [None] and the empty
    string make the call without a token. *)
Definition token_argument (continuation_token : option string)
  : option string :=
  match continuation_token with
  | Some "" => None
  | t => t
  end.

(** The [while True] loop that the three listing functions share: call,
    take the response in with [absorb], go on with
    ['NextContinuationToken'] while ['IsTruncated'] holds; any exception,
    from the call or from a missing token, ends the loop with what has been
    taken in.  [fuel] bounds the number of calls; [None] when they do not
    suffice. *)
Fixpoint listing_loop {A} (s3 : list_call) (absorb : A -> ListResponse -> A)
    (fuel : nat) (continuation_token : option string) (acc : A) : option A :=
  match fuel with
  | O => None
  | S fuel =>
      match s3 (token_argument continuation_token) with
      | None => Some acc
      | Some response =>
          let acc := absorb acc response in
          if default false (IsTruncated response) then
            match NextContinuationToken response with
            | Some token => listing_loop s3 absorb fuel (Some token) acc
            | None => Some acc
            end
          else Some acc
      end
  end.

(** [get_objects_data]: [objects.extend(response.get('Contents', []))] *)
Definition get_objects_data (s3 : list_call) (fuel : nat)
  : option (list ObjectRecord) :=
  listing_loop s3
    (fun objects response => (objects ++ default [] (Contents response))%list)
    fuel None [].

(** [list_all_prefixes]:
    [for prefix in response.get('CommonPrefixes', []):
       prefixes.add(prefix['Prefix'])] *)
Definition list_all_prefixes (s3 : list_call) (fuel : nat)
  : option (gset string) :=
  listing_loop s3
    (fun prefixes response =>
       fold_left (fun prefixes prefix => prefixes ∪ {[ prefix ]})
                 (default [] (CommonPrefixes response)) prefixes)
    fuel None ∅.

(** [convert_bytes_to_gb_tb] of [all_s3_top.py].  The result is the number
    that the f-string prints with two decimals, and the unit after it;
    the division of the int [size] raises [OverflowError] when the quotient
    is too large for a float. *)
Definition convert_bytes_to_gb_tb (size : Z) : result (float * string) :=
  size_gb ← int_truediv size (1024 ^ 3);
  if SFltb size_gb (binary_normalize prec emax 1024 0 false)
  then Ok (size_gb, "GB")
  else Ok (SFdiv prec emax size_gb (exact_int 1024), "TB").

(** [get_bucket_size] of [all_s3_top.py]:
    [for obj in contents: size += obj['Size']] in the loop; after the loop,
    and outside its [try], the size is printed through
    [convert_bytes_to_gb_tb], and returned.  [None] when the calls that
    [fuel] allows do not end the loop. *)
Definition get_bucket_size (s3 : list_call) (fuel : nat)
  : option (result Z) :=
  (fun size => convert_bytes_to_gb_tb size ≫= fun _ => Ok size) <$>
  listing_loop s3
    (fun size response =>
       fold_left (fun size obj => size + Size obj)
                 (default [] (Contents response)) size)
    fuel None 0.

(** The pages that the loop reads one after the other from the call with
    [token], each truncated and naming the token of the next call, and the
    argument [next] of the call that follows them. *)
Inductive reads (s3 : list_call)
  : option string -> list ListResponse -> option string -> Prop :=
  | reads_nil token : reads s3 token [] token
  | reads_cons token response continuation pages next :
      s3 token = Some response ->
      default false (IsTruncated response) = true ->
      NextContinuationToken response = Some continuation ->
      reads s3 (token_argument (Some continuation)) pages next ->
      reads s3 token (response :: pages) next.

(** The objects of a sequence of pages. *)
Definition page_objects (pages : list ListResponse) : list ObjectRecord :=
  concat (map (fun response => default [] (Contents response)) pages).

(** The call after which the loop stops without an exception from the
    client: the response is not truncated, or names no next token. *)
Definition final_page (response : ListResponse) : Prop :=
  default false (IsTruncated response) = false \/
  NextContinuationToken response = None.

(** A client with two pages of objects. *)
Definition two_page_client : list_call :=
  fun token =>
    match token with
    | None =>
        Some {| Contents := Some [obj_a1; obj_a2]; CommonPrefixes := None;
                IsTruncated := Some true;
                NextContinuationToken := Some "t1" |}
    | Some "t1" =>
        Some {| Contents := Some [obj_b1]; CommonPrefixes := None;
                IsTruncated := Some false; NextContinuationToken := None |}
    | Some _ => None
    end.

(** A client that answers every call with the same truncated page. *)
Definition endless_client : list_call :=
  fun _ =>
    Some {| Contents := Some [obj_a1]; CommonPrefixes := None;
            IsTruncated := Some true; NextContinuationToken := Some "t" |}.

(** The common prefixes of a sequence of pages. *)
Definition page_prefixes (pages : list ListResponse) : list string :=
  concat (map (fun response => default [] (CommonPrefixes response)) pages).

(** The bytes of a list of objects. *)
Definition total_size (objects : list ObjectRecord) : Z :=
  fold_right (fun obj acc => Size obj + acc) 0 objects.

(** A rule with one transition. *)
Definition rule_one_transition : LifecycleRule :=
  {| ID := Some "to-ia"; Filter := None; Status := Some "Enabled";
     Transitions :=
       Some [ {| tr_Days := Some 30; tr_StorageClass := Some "STANDARD_IA" |} ];
     Expiration := None; NoncurrentVersionExpiration := None |}.

(** A client whose second call raises. *)
Definition failing_client : list_call :=
  fun token =>
    match token with
    | None =>
        Some {| Contents := Some [obj_a1; obj_a2]; CommonPrefixes := None;
                IsTruncated := Some true;
                NextContinuationToken := Some "t1" |}
    | Some _ => None
    end.

(** A client with two pages of common prefixes. *)
Definition prefix_client : list_call :=
  fun token =>
    match token with
    | None =>
        Some {| Contents := None; CommonPrefixes := Some ["a/"; "b/"];
                IsTruncated := Some true;
                NextContinuationToken := Some "t1" |}
    | Some "t1" =>
        Some {| Contents := None; CommonPrefixes := Some ["b/"; "c/"];
                IsTruncated := None; NextContinuationToken := None |}
    | Some _ => None
    end.

(** ** [convert_size] *)



Section convert_size.

(** What the [math] module and [str] compute on floats is the C library's
    business and fixed by no exact specification: [c_log] and [c_pow] are
    its [log] and [pow] on doubles, [log_of_huge] the logarithm that
    [math.log] puts together for an int too large for a float, and
    [float_str] the text of a float. *)
Variable c_log : float -> float.
Variable log_of_huge : Z -> float.
Variable c_pow : float -> float -> float.
Variable float_str : float -> string.





End convert_size.




(** * Properties *)

(** ** Strings *)

Section StringFacts.
Variable sep : ascii.

Lemma split_cons_inv (s : string) : exists w ws, split sep s = w :: ws.
Proof.
  induction s as [|c s [w [ws IH]]]; simpl; [by eauto|].
  destruct (Ascii.eqb c sep); [by eauto|]. rewrite IH. by eauto.
Qed.

Lemma split_lacks (s : string) : lacks sep s -> split sep s = [s].
Proof.
  induction s as [|c s IH]; simpl; [done|]. intros [Hc Hs].
  destruct (Ascii.eqb_spec c sep) as [->|_]; [done|]. by rewrite IH.
Qed.

Lemma split_segments_lack (s : string) : Forall (lacks sep) (split sep s).
Proof.
  induction s as [|c s IH]; simpl; [by repeat constructor|].
  destruct (Ascii.eqb_spec c sep) as [->|Hc].
  - by constructor.
  - destruct (split sep s) as [|w ws]; [by repeat constructor|].
    inversion_clear IH. by constructor.
Qed.

Lemma split_app_sep (d f : string) :
  split sep (d ++ String sep f) = (split sep d ++ split sep f)%list.
Proof.
  induction d as [|c d IH]; simpl.
  - by rewrite Ascii.eqb_refl.
  - destruct (Ascii.eqb c sep); [by rewrite IH|].
    rewrite IH. by destruct (split_cons_inv d) as [w [ws ->]].
Qed.

Lemma join_split (s : string) : join (String sep "") (split sep s) = s.
Proof.
  induction s as [|c s IH]; simpl; [done|].
  destruct (Ascii.eqb_spec c sep) as [->|_].
  - destruct (split_cons_inv s) as [w [ws Hs]]. rewrite Hs in *.
    simpl in *. by rewrite IH.
  - destruct (split_cons_inv s) as [w [ws Hs]]. rewrite Hs in *.
    destruct ws; simpl in *; by rewrite <- IH.
Qed.

Lemma split_snoc (s : string) :
  exists segments name, split sep s = (segments ++ [name])%list.
Proof.
  destruct (split_cons_inv s) as [w [ws ->]].
  destruct (exists_last (l := w :: ws)) as [segs [name ->]]; [done|].
  by eauto.
Qed.
End StringFacts.

Lemma startswith_app (s p : string) :
  startswith s p = true <-> exists rest, s = p ++ rest.
Proof.
  unfold startswith. revert s. induction p as [|c p IH]; intros s; simpl.
  - split; [by eauto|]. intros _. by destruct s.
  - destruct s as [|c' s]; simpl.
    + split; [done|]. by intros [rest ?].
    + destruct (ascii_dec c c') as [->|Hne].
      * rewrite IH. split; intros [rest H]; exists rest.
        -- change (String c' s = String c' (p ++ rest)). by rewrite H.
        -- change (String c' s = String c' (p ++ rest)) in H. congruence.
      * split; [done|]. intros [rest H].
        change (String c' s = String c (p ++ rest)) in H. congruence.
Qed.

(** C7. The prefix of a key: the key splits at its ['/'] characters into
    segments without ['/'] whose join is the key again, and the prefix is
    the join of all segments but the last, followed by ['/'].  So the key
    [dir/name] has the prefix [dir/], and a key without ['/'], such as
    [file.txt], has the prefix ['/'].  The function is defined on every
    string. *)
Theorem prefix_path_segments (key : string) :
  (exists segments name,
      split "/" key = (segments ++ [name])%list /\
      Forall (lacks "/") segments /\ lacks "/" name /\
      key = join "/" (segments ++ [name]) /\
      prefix_path key = join "/" segments ++ "/") /\
  (forall dir name, key = dir ++ "/" ++ name -> lacks "/" name ->
      prefix_path key = dir ++ "/") /\
  (lacks "/" key -> prefix_path key = "/") /\
  prefix_path "file.txt" = "/".
Proof.
  repeat split.
  - destruct (split_snoc "/" key) as [segments [name Hs]].
    exists segments, name. pose proof (split_segments_lack "/" key) as Hl.
    rewrite Hs in Hl. apply Forall_app in Hl as [Hsegs Hname].
    inversion_clear Hname. repeat split; try done.
    + by rewrite <- Hs, join_split.
    + unfold prefix_path. by rewrite Hs, removelast_last.
  - intros dir name -> Hname. unfold prefix_path.
    change (dir ++ "/" ++ name) with (dir ++ String "/" name).
    rewrite split_app_sep, (split_lacks _ name Hname), removelast_last.
    by rewrite join_split.
  - intros Hkey. unfold prefix_path. by rewrite split_lacks.
Qed.

(** ** Dictionaries *)

Section DictFacts.
Context {V : Type}.
Implicit Types (d : dict V) (k : string).

Lemma dict_get_dd_update dflt (f : V -> V) k k' d :
  dict_get (dd_update dflt f k d) k' =
  if String.eqb k k' then Some (f (default dflt (dict_get d k)))
  else dict_get d k'.
Proof.
  induction d as [|[k0 v] d IH]; simpl.
  - by destruct (String.eqb_spec k k').
  - destruct (String.eqb_spec k0 k) as [->|Hk]; simpl.
    + by destruct (String.eqb_spec k k').
    + rewrite IH. destruct (String.eqb_spec k k') as [->|_]; [|done].
      by destruct (String.eqb_spec k0 k').
Qed.

Lemma dict_get_None d k : k ∉ keys d -> dict_get d k = None.
Proof.
  unfold keys. induction d as [|[k0 v] d IH]; [done|].
  cbn [map fst dict_get]. intros [Hk Hd]%not_elem_of_cons.
  destruct (String.eqb_spec k0 k); [congruence|auto].
Qed.

Lemma dd_update_twice dflt (f1 f2 : V -> V) k d :
  dd_update dflt f2 k (dd_update dflt f1 k d) =
  dd_update dflt (fun v => f2 (f1 v)) k d.
Proof.
  induction d as [|[k0 v] d IH]; simpl.
  - by rewrite String.eqb_refl.
  - destruct (String.eqb_spec k0 k) as [->|Hk]; simpl.
    + by rewrite String.eqb_refl.
    + destruct (String.eqb_spec k0 k); [done|]. by rewrite IH.
Qed.

Lemma keys_dd_update dflt (f : V -> V) k d :
  keys (dd_update dflt f k d) =
  if decide (k ∈ keys d) then keys d else (keys d ++ [k])%list.
Proof.
  unfold keys. induction d as [|[k0 v] d IH].
  - by rewrite decide_False by apply not_elem_of_nil.
  - cbn [dd_update]. destruct (String.eqb_spec k0 k) as [->|Hk].
    + by rewrite decide_True by (apply elem_of_cons; by left).
    + cbn [map fst]. rewrite IH. destruct (decide (k ∈ map fst d)).
      * by rewrite decide_True by (apply elem_of_cons; by right).
      * rewrite decide_False; [done|].
        apply not_elem_of_cons. split; [congruence|done].
Qed.

Lemma NoDup_keys_dd_update dflt (f : V -> V) k d :
  NoDup (keys d) -> NoDup (keys (dd_update dflt f k d)).
Proof.
  intros Hd. rewrite keys_dd_update. destruct (decide (k ∈ keys d)); [done|].
  apply NoDup_app. repeat split; [done| |apply NoDup_singleton].
  intros x Hx ->%list_elem_of_singleton. done.
Qed.

Lemma sum_over_dd_update (h : V -> Z) delta dflt (f : V -> V) k d :
  (forall v, h (f v) = h v + delta) -> h dflt = 0 ->
  sum_over h (dd_update dflt f k d) = sum_over h d + delta.
Proof.
  intros Hf H0. induction d as [|[k0 v] d IH]; simpl.
  - rewrite Hf, H0. lia.
  - destruct (String.eqb k0 k); simpl; [rewrite Hf | rewrite IH]; lia.
Qed.

Lemma Forall_dd_update (P : V -> Prop) dflt (f : V -> V) k d :
  (forall v, P v -> P (f v)) -> P dflt ->
  Forall (fun item => P (snd item)) d ->
  Forall (fun item => P (snd item)) (dd_update dflt f k d).
Proof.
  intros Hf H0. induction 1 as [|[k0 v] d Hv Hd IH]; simpl.
  - repeat constructor. by apply Hf.
  - destruct (String.eqb k0 k); constructor; simpl; auto.
Qed.
End DictFacts.

Lemma sum_values_sum_over (d : dict Z) : sum_values d = sum_over id d.
Proof. unfold sum_values, values. by induction d as [|[k v] d IH]; simpl; f_equal. Qed.

Lemma sum_values_dd_add k n (d : dict Z) :
  sum_values (dd_add k n d) = sum_values d + n.
Proof.
  rewrite !sum_values_sum_over. by apply sum_over_dd_update.
Qed.

Lemma bytes_of_dd_add k n (d : dict Z) sc :
  bytes_of (dd_add k n d) sc =
  bytes_of d sc + (if String.eqb k sc then n else 0).
Proof.
  unfold bytes_of, dd_add. rewrite dict_get_dd_update.
  destruct (String.eqb_spec k sc) as [->|_]; simpl; lia.
Qed.

(** ** The aggregation invariants *)

Lemma aggregate_step_consistent st obj :
  aggregates_consistent st -> aggregates_consistent (aggregate_step st obj).
Proof.
  destruct st as [g pd]. intros (Hpd & Hg & Hsum). unfold aggregate_step.
  rewrite dd_update_twice. repeat split; simpl in *.
  - apply (Forall_dd_update detail_consistent); [|done|done].
    intros d Hd. unfold detail_consistent in *. simpl.
    rewrite sum_values_dd_add. lia.
  - intros sc. rewrite bytes_of_dd_add, Hg.
    symmetry. apply sum_over_dd_update; [|done].
    intros d. simpl. by rewrite bytes_of_dd_add.
  - rewrite sum_values_dd_add, <- Hsum.
    by apply sum_over_dd_update.
Qed.

Lemma fold_aggregate_step_consistent objects st :
  aggregates_consistent st ->
  aggregates_consistent (fold_left aggregate_step objects st).
Proof.
  revert st. induction objects as [|obj objects IH]; intros st Hst; simpl.
  - done.
  - by apply IH, aggregate_step_consistent.
Qed.

(** C1. After any sequence of records, each prefix's [TotalSize] is the sum
    of the prefix's per-class bytes, the global bytes of every class are the
    sum of that class's bytes over all prefixes, and so the prefix totals
    add up to the sum of the global per-class totals. *)
Theorem calculate_storage_class_data_invariants (objects : list ObjectRecord) :
  let '(storage_class_data, prefix_details) :=
    calculate_storage_class_data objects in
  (forall prefix d, (prefix, d) ∈ prefix_details ->
     TotalSize d = sum_values (StorageClass d)) /\
  (forall sc, bytes_of storage_class_data sc =
     sum_over (fun d => bytes_of (StorageClass d) sc) prefix_details) /\
  sum_over TotalSize prefix_details = sum_values storage_class_data.
Proof.
  pose proof (fold_aggregate_step_consistent objects ([], [])) as H.
  fold (calculate_storage_class_data objects) in H.
  destruct (calculate_storage_class_data objects) as [g pd].
  destruct H as (Hpd & Hg & Hsum); [by repeat split|].
  repeat split; [|done|done].
  intros prefix d Hin. rewrite Forall_forall in Hpd.
  by apply (Hpd (prefix, d)).
Qed.

(** ** Merging contents *)

Section MergeFacts.
Implicit Types (m : gmap string Z) (M : gmap string (Z * gmap string Z)).

Lemma merge_bytes_lookup m1 m2 sc :
  merge_bytes m1 m2 !! sc =
  union_with (fun x y => Some (x + y)) (m1 !! sc) (m2 !! sc).
Proof. apply lookup_union_with. Qed.

Lemma merge_bytes_comm m1 m2 : merge_bytes m1 m2 = merge_bytes m2 m1.
Proof.
  apply map_eq; intros sc. rewrite !merge_bytes_lookup.
  destruct (m1 !! sc), (m2 !! sc); simpl; f_equal; lia.
Qed.

Lemma merge_bytes_assoc m1 m2 m3 :
  merge_bytes m1 (merge_bytes m2 m3) = merge_bytes (merge_bytes m1 m2) m3.
Proof.
  apply map_eq; intros sc. rewrite !merge_bytes_lookup.
  destruct (m1 !! sc), (m2 !! sc), (m3 !! sc); simpl; f_equal; lia.
Qed.

Lemma merge_bytes_empty_l m : merge_bytes ∅ m = m.
Proof.
  apply map_eq; intros sc. rewrite merge_bytes_lookup, lookup_empty.
  by destruct (m !! sc).
Qed.

Lemma merge_bytes_empty_r m : merge_bytes m ∅ = m.
Proof. by rewrite merge_bytes_comm, merge_bytes_empty_l. Qed.

Lemma merge_details_lookup M1 M2 p :
  merge_details M1 M2 !! p =
  union_with (fun a b => Some (fst a + fst b, merge_bytes (snd a) (snd b)))
             (M1 !! p) (M2 !! p).
Proof. apply lookup_union_with. Qed.

Lemma merge_details_comm M1 M2 : merge_details M1 M2 = merge_details M2 M1.
Proof.
  apply map_eq; intros p. rewrite !merge_details_lookup.
  destruct (M1 !! p) as [[t1 c1]|], (M2 !! p) as [[t2 c2]|]; simpl; [|done..].
  rewrite (merge_bytes_comm c1 c2). do 2 f_equal. lia.
Qed.

Lemma merge_details_assoc M1 M2 M3 :
  merge_details M1 (merge_details M2 M3) =
  merge_details (merge_details M1 M2) M3.
Proof.
  apply map_eq; intros p. rewrite !merge_details_lookup.
  destruct (M1 !! p) as [[t1 c1]|], (M2 !! p) as [[t2 c2]|],
           (M3 !! p) as [[t3 c3]|]; simpl; [|done..].
  rewrite merge_bytes_assoc. do 2 f_equal. lia.
Qed.

Lemma merge_details_empty_l M : merge_details ∅ M = M.
Proof.
  apply map_eq; intros p. rewrite merge_details_lookup, lookup_empty.
  by destruct (M !! p).
Qed.

Lemma merge_details_empty_r M : merge_details M ∅ = M.
Proof. by rewrite merge_details_comm, merge_details_empty_l. Qed.
End MergeFacts.

(** ** Contents of updated dictionaries *)

Section ContentsFacts.
Context {V W : Type} (vw : V -> W).

Lemma lookup_list_to_map_dict (d : dict V) k :
  (list_to_map (prod_map id vw <$> d) : gmap string W) !! k =
  vw <$> dict_get d k.
Proof.
  induction d as [|[k0 v] d IH]; simpl; [by rewrite lookup_empty|].
  destruct (String.eqb_spec k0 k) as [->|Hk].
  - by rewrite lookup_insert_eq.
  - by rewrite lookup_insert_ne.
Qed.

Lemma list_to_map_dd_update dflt (f : V -> V) k (d : dict V) :
  (list_to_map (prod_map id vw <$> dd_update dflt f k d) : gmap string W) =
  <[k := vw (f (default dflt (dict_get d k)))]>
    (list_to_map (prod_map id vw <$> d)).
Proof.
  induction d as [|[k0 v] d IH]; [done|].
  cbn [dd_update dict_get]. destruct (String.eqb_spec k0 k) as [->|Hk].
  - rewrite !fmap_cons.
    change (prod_map id vw (k, f v)) with (k, vw (f v)).
    change (prod_map id vw (k, v)) with (k, vw v).
    rewrite !list_to_map_cons. simpl. by rewrite insert_insert_eq.
  - rewrite !fmap_cons.
    change (prod_map id vw (k0, v)) with (k0, vw v).
    rewrite !list_to_map_cons, IH. by rewrite insert_insert_ne.
Qed.
End ContentsFacts.

Lemma contents_alt (d : dict Z) :
  contents d = list_to_map (prod_map id id <$> d).
Proof.
  unfold contents. f_equal.
  induction d as [|[k v] d IH]; [done|]. by rewrite fmap_cons, <- IH.
Qed.

Lemma contents_lookup (d : dict Z) sc : contents d !! sc = dict_get d sc.
Proof.
  rewrite contents_alt, lookup_list_to_map_dict. by destruct (dict_get d sc).
Qed.

Lemma contents_cons sc n (d : dict Z) :
  sc ∉ keys d ->
  contents ((sc, n) :: d) = merge_bytes {[ sc := n ]} (contents d).
Proof.
  intros Hsc. apply map_eq; intros k.
  rewrite merge_bytes_lookup, !contents_lookup. cbn [dict_get].
  destruct (String.eqb_spec sc k) as [->|Hk].
  - by rewrite lookup_singleton_eq, dict_get_None.
  - rewrite lookup_singleton_ne by done. by destruct (dict_get d k).
Qed.

Lemma contents_dd_add sc n (d : dict Z) :
  contents (dd_add sc n d) = merge_bytes (contents d) {[ sc := n ]}.
Proof.
  apply map_eq; intros k.
  rewrite merge_bytes_lookup, !contents_lookup.
  unfold dd_add. rewrite dict_get_dd_update.
  destruct (String.eqb_spec sc k) as [->|Hk].
  - rewrite lookup_singleton_eq.
    destruct (dict_get d k); simpl; f_equal; lia.
  - rewrite lookup_singleton_ne by done.
    by destruct (dict_get d k).
Qed.

Lemma prefix_contents_lookup (pd : dict PrefixDetail) p :
  prefix_contents pd !! p = detail_contents <$> dict_get pd p.
Proof. apply lookup_list_to_map_dict. Qed.

(** The two updates that a record makes to its prefix. *)
Lemma prefix_contents_add_record sc n p (pd : dict PrefixDetail) :
  prefix_contents
    (dd_update new_detail (add_StorageClass sc n) p
       (dd_update new_detail (add_TotalSize n) p pd)) =
  merge_details (prefix_contents pd) {[ p := (n, {[ sc := n ]}) ]}.
Proof.
  rewrite dd_update_twice. unfold prefix_contents.
  rewrite list_to_map_dd_update. fold (prefix_contents pd).
  apply map_eq; intros k. rewrite merge_details_lookup.
  destruct (decide (p = k)) as [->|Hk].
  - rewrite lookup_insert_eq, lookup_singleton_eq, prefix_contents_lookup.
    unfold detail_contents at 1. simpl. rewrite contents_dd_add.
    destruct (dict_get pd k) as [d|]; simpl; [done|].
    by rewrite merge_bytes_empty_l.
  - rewrite lookup_insert_ne, lookup_singleton_ne by done.
    by destruct (prefix_contents pd !! k).
Qed.

(** One step of the aggregator adds the record's contribution. *)
Lemma aggregate_step_contents st obj :
  aggregate_contents (aggregate_step st obj) =
  (merge_bytes (fst (aggregate_contents st)) (record_bytes obj),
   merge_details (snd (aggregate_contents st)) (record_details obj)).
Proof.
  destruct st as [g pd]. unfold aggregate_step, aggregate_contents. simpl.
  by rewrite contents_dd_add, prefix_contents_add_record.
Qed.

Lemma fold_aggregate_step_contents objects st :
  aggregate_contents (fold_left aggregate_step objects st) =
  (merge_bytes (fst (aggregate_contents st)) (fst (total_contents objects)),
   merge_details (snd (aggregate_contents st)) (snd (total_contents objects))).
Proof.
  revert st. induction objects as [|obj objects IH]; intros st; simpl.
  - rewrite merge_bytes_empty_r, merge_details_empty_r.
    by destruct st.
  - rewrite IH, aggregate_step_contents. simpl.
    by rewrite !merge_bytes_assoc, !merge_details_assoc.
Qed.

Lemma calculate_storage_class_data_contents objects :
  aggregate_contents (calculate_storage_class_data objects) =
  total_contents objects.
Proof.
  unfold calculate_storage_class_data. rewrite fold_aggregate_step_contents.
  simpl. change (contents []) with (∅ : gmap string Z).
  change (prefix_contents []) with (∅ : gmap string (Z * gmap string Z)).
  rewrite merge_bytes_empty_l, merge_details_empty_l.
  by destruct (total_contents objects).
Qed.

Lemma aggregate_step_well_keyed st obj :
  well_keyed st -> well_keyed (aggregate_step st obj).
Proof.
  destruct st as [g pd]. intros (Hg & Hpd & Hcls). unfold aggregate_step.
  repeat split; simpl in *.
  - by apply NoDup_keys_dd_update.
  - by do 2 apply NoDup_keys_dd_update.
  - rewrite dd_update_twice.
    apply (Forall_dd_update (fun d => NoDup (keys (StorageClass d))));
      [|by constructor|done].
    intros d Hd. simpl. by apply NoDup_keys_dd_update.
Qed.

Lemma calculate_storage_class_data_well_keyed objects :
  well_keyed (calculate_storage_class_data objects).
Proof.
  unfold calculate_storage_class_data.
  assert (well_keyed ([], [])) as H by (repeat split; constructor).
  revert H. generalize (([], []) : aggregates).
  induction objects as [|obj objects IH]; intros st Hst; simpl; [done|].
  by apply IH, aggregate_step_well_keyed.
Qed.

(** ** The merge loop adds contents *)

Lemma merge_storage_class_data_contents (total scd : dict Z) :
  NoDup (keys scd) ->
  contents (merge_storage_class_data total scd) =
  merge_bytes (contents total) (contents scd).
Proof.
  unfold merge_storage_class_data. revert total.
  induction scd as [|[sc n] scd IH]; intros total Hnd; cbn [fold_left].
  - change (contents []) with (∅ : gmap string Z).
    by rewrite merge_bytes_empty_r.
  - apply NoDup_cons in Hnd as [Hsc Hnd].
    rewrite IH, contents_dd_add, contents_cons by done.
    by rewrite merge_bytes_assoc.
Qed.

Lemma prefix_contents_add_class sc n p (all : dict PrefixDetail) t c :
  prefix_contents all !! p = Some (t, c) ->
  prefix_contents (dd_update new_detail (add_StorageClass sc n) p all) =
  <[p := (t, merge_bytes c {[ sc := n ]})]> (prefix_contents all).
Proof.
  intros Hp. unfold prefix_contents. rewrite list_to_map_dd_update.
  fold (prefix_contents all). rewrite prefix_contents_lookup in Hp.
  destruct (dict_get all p) as [d|]; [|done].
  injection Hp as <- <-. simpl. unfold detail_contents. simpl.
  by rewrite contents_dd_add.
Qed.

Lemma merge_classes_contents p (scl : dict Z) (all : dict PrefixDetail) t c :
  NoDup (keys scl) ->
  prefix_contents all !! p = Some (t, c) ->
  prefix_contents
    (fold_left
       (fun all '(sc, size) =>
          dd_update new_detail (add_StorageClass sc size) p all) scl all) =
  <[p := (t, merge_bytes c (contents scl))]> (prefix_contents all).
Proof.
  revert all c. induction scl as [|[sc n] scl IH]; intros all c Hnd Hp;
    cbn [fold_left].
  - change (contents []) with (∅ : gmap string Z).
    by rewrite merge_bytes_empty_r, insert_id.
  - apply NoDup_cons in Hnd as [Hsc Hnd].
    rewrite (IH _ (merge_bytes c {[ sc := n ]})); [|done|].
    + rewrite (prefix_contents_add_class _ _ _ _ t c) by done.
      rewrite insert_insert_eq, contents_cons by done.
      by rewrite merge_bytes_assoc.
    + rewrite (prefix_contents_add_class _ _ _ _ t c) by done.
      by rewrite lookup_insert_eq.
Qed.

Lemma prefix_contents_cons p d (pd : dict PrefixDetail) :
  p ∉ keys pd ->
  prefix_contents ((p, d) :: pd) =
  merge_details {[ p := detail_contents d ]} (prefix_contents pd).
Proof.
  intros Hp. apply map_eq; intros k.
  rewrite merge_details_lookup, !prefix_contents_lookup. cbn [dict_get].
  destruct (String.eqb_spec p k) as [->|Hk].
  - by rewrite lookup_singleton_eq, dict_get_None.
  - rewrite lookup_singleton_ne by done. by destruct (dict_get pd k).
Qed.

Lemma merge_prefix_details_contents (all pd : dict PrefixDetail) :
  NoDup (keys pd) ->
  Forall (fun item => NoDup (keys (StorageClass (snd item)))) pd ->
  prefix_contents (merge_prefix_details all pd) =
  merge_details (prefix_contents all) (prefix_contents pd).
Proof.
  unfold merge_prefix_details. revert all.
  induction pd as [|[p d] pd IH]; intros all Hnd Hcls; cbn [fold_left].
  - change (prefix_contents []) with (∅ : gmap string (Z * gmap string Z)).
    by rewrite merge_details_empty_r.
  - apply NoDup_cons in Hnd as [Hp Hnd]. inversion_clear Hcls as [|? ? Hd Hpd].
    rewrite IH, prefix_contents_cons, merge_details_assoc by done. f_equal.
    set (all1 := dd_update new_detail (add_TotalSize (TotalSize d)) p all).
    assert (prefix_contents all1 =
            <[p := (fst (default (0, ∅) (prefix_contents all !! p)) + TotalSize d,
                    snd (default (0, ∅) (prefix_contents all !! p)))]>
              (prefix_contents all)) as Hall1.
    { unfold all1, prefix_contents. rewrite list_to_map_dd_update.
      fold (prefix_contents all). rewrite prefix_contents_lookup.
      by destruct (dict_get all p). }
    erewrite merge_classes_contents; [|done|by rewrite Hall1, lookup_insert_eq].
    rewrite Hall1, insert_insert_eq. apply map_eq; intros k.
    rewrite merge_details_lookup. destruct (decide (p = k)) as [->|Hk].
    + rewrite lookup_insert_eq, lookup_singleton_eq.
      destruct (prefix_contents all !! k) as [[t c]|]; simpl; [done|].
      by rewrite merge_bytes_empty_l.
    + rewrite lookup_insert_ne, lookup_singleton_ne by done.
      by destruct (prefix_contents all !! k).
Qed.

Lemma merge_batch_contents st objects :
  aggregate_contents (merge_batch st objects) =
  (merge_bytes (fst (aggregate_contents st)) (fst (total_contents objects)),
   merge_details (snd (aggregate_contents st)) (snd (total_contents objects))).
Proof.
  unfold merge_batch.
  pose proof (calculate_storage_class_data_contents objects) as Hc.
  pose proof (calculate_storage_class_data_well_keyed objects) as Hk.
  destruct (calculate_storage_class_data objects) as [g pd].
  destruct Hk as (Hg & Hpd & Hcls). rewrite <- Hc.
  unfold aggregate_contents. simpl in *.
  by rewrite merge_storage_class_data_contents, merge_prefix_details_contents.
Qed.

Lemma total_contents_app l1 l2 :
  total_contents (l1 ++ l2)%list =
  (merge_bytes (fst (total_contents l1)) (fst (total_contents l2)),
   merge_details (snd (total_contents l1)) (snd (total_contents l2))).
Proof.
  induction l1 as [|obj l1 IH]; simpl.
  - rewrite merge_bytes_empty_l, merge_details_empty_l.
    by destruct (total_contents l2).
  - rewrite IH. simpl. by rewrite merge_bytes_assoc, merge_details_assoc.
Qed.

Lemma fold_merge_batch_contents batches st :
  aggregate_contents (fold_left merge_batch batches st) =
  (merge_bytes (fst (aggregate_contents st))
     (fst (total_contents (concat batches))),
   merge_details (snd (aggregate_contents st))
     (snd (total_contents (concat batches)))).
Proof.
  revert st. induction batches as [|b batches IH]; intros st; simpl.
  - rewrite merge_bytes_empty_r, merge_details_empty_r. by destruct st.
  - rewrite IH, merge_batch_contents, total_contents_app. simpl.
    by rewrite merge_bytes_assoc, merge_details_assoc.
Qed.

Lemma total_contents_Permutation l1 l2 :
  Permutation l1 l2 -> total_contents l1 = total_contents l2.
Proof.
  induction 1 as [|x l1 l2 _ IH|x y l|l1 l2 l3 _ IH1 _ IH2]; simpl.
  - done.
  - by rewrite IH.
  - rewrite !merge_bytes_assoc, !merge_details_assoc.
    by rewrite (merge_bytes_comm (record_bytes y)),
               (merge_details_comm (record_details y)).
  - congruence.
Qed.

(** C2. However a collection of records is cut into batches and ordered,
    aggregating each batch and adding the results up as [main] does leaves
    the same global per-class bytes and the same per-prefix totals and
    per-class bytes as one run of the aggregator over the records in any
    order (the dictionaries are compared as Python's [==] does, by their
    contents). *)
Theorem main_aggregate_batching_independent
    (batches : list (list ObjectRecord)) (objects : list ObjectRecord) :
  Permutation (concat batches) objects ->
  aggregate_contents (main_aggregate batches) =
  aggregate_contents (calculate_storage_class_data objects).
Proof.
  intros Hperm. unfold main_aggregate.
  rewrite fold_merge_batch_contents, calculate_storage_class_data_contents.
  rewrite (total_contents_Permutation _ _ Hperm). simpl.
  change (contents []) with (∅ : gmap string Z).
  change (prefix_contents []) with (∅ : gmap string (Z * gmap string Z)).
  rewrite merge_bytes_empty_l, merge_details_empty_l.
  by destruct (total_contents objects).
Qed.

Lemma main_aggregate_batching_independent_witness :
  aggregate_contents (main_aggregate [[obj_a1; obj_b1]; [obj_a2]]) =
  aggregate_contents (calculate_storage_class_data [obj_a2; obj_a1; obj_b1]).
Proof.
  apply main_aggregate_batching_independent. simpl.
  symmetry. apply (Permutation_cons_append [obj_a1; obj_b1] obj_a2).
Defined.

Lemma prefix_path_segments_witness :
  prefix_path "a/b/c.txt" = "a/b/" /\ prefix_path "file.txt" = "/".
Proof.
  split.
  - apply (proj1 (proj2 (prefix_path_segments "a/b/c.txt")) "a/b" "c.txt").
    + reflexivity.
    + simpl. repeat split; discriminate.
  - apply (proj1 (proj2 (proj2 (prefix_path_segments "file.txt")))).
    simpl. repeat split; discriminate.
Defined.

(** C3. The end-to-end scenario: the three objects [a/1.txt] (100 bytes,
    STANDARD), [a/2.txt] (924 bytes, GLACIER) and [b/1.txt] (1024 bytes,
    STANDARD) give the global bytes STANDARD 1124 and GLACIER 924, the
    prefix [a/] with STANDARD 100, GLACIER 924 and total 1024, the prefix
    [b/] with STANDARD 1024 and total 1024; and the cost of the GLACIER
    bytes of [a/], [0.004 * (924 / 2**30)] rounded to two decimals, is
    [0.0]. *)
Theorem end_to_end_scenario :
  calculate_storage_class_data [obj_a1; obj_a2; obj_b1] =
    ([("STANDARD", 1124); ("GLACIER", 924)],
     [("a/", {| TotalSize := 1024;
                StorageClass := [("STANDARD", 100); ("GLACIER", 924)] |});
      ("b/", {| TotalSize := 1024;
                StorageClass := [("STANDARD", 1024)] |})]) /\
  (gb ← int_truediv 924 (1024 ^ 3);
   Ok (py_round (SFmul prec emax (decimal 4 3) gb) 2)) = Ok (S754_zero false) /\
  (costs ← calculate_cost [("STANDARD", 100); ("GLACIER", 924)];
   Ok (dict_get costs "GLACIER")) = Ok (Some (S754_zero false)).
Proof. repeat split; vm_compute; reflexivity. Qed.

(** ** Ranking *)

Section Ranking.
Context {A : Type} (key : A -> Z).

Lemma insert_desc_Permutation x l : Permutation (insert_desc key x l) (x :: l).
Proof.
  induction l as [|y l IH]; simpl; [done|].
  destruct (key x <? key y); [|done].
  rewrite IH. apply perm_swap.
Qed.

Lemma sorted_reverse_Permutation l : Permutation (sorted_reverse key l) l.
Proof.
  induction l as [|x l IH]; simpl; [done|].
  by rewrite insert_desc_Permutation, IH.
Qed.

Lemma insert_desc_sorted x l :
  StronglySorted (key_desc key) l -> StronglySorted (key_desc key) (insert_desc key x l).
Proof.
  induction 1 as [|y l Hl IH Hy]; simpl; [by repeat constructor|].
  destruct (Z.ltb_spec (key x) (key y)) as [Hlt|Hge].
  - constructor; [done|].
    rewrite insert_desc_Permutation. constructor; [|done].
    unfold key_desc. lia.
  - constructor; [by constructor|]. constructor; [done|].
    eapply Forall_impl; [done|]. unfold key_desc. simpl. intros; lia.
Qed.

Lemma sorted_reverse_sorted l : StronglySorted (key_desc key) (sorted_reverse key l).
Proof.
  induction l as [|x l IH]; simpl; [constructor|].
  by apply insert_desc_sorted.
Qed.

Lemma firstn_sorted n l :
  StronglySorted (key_desc key) l -> StronglySorted (key_desc key) (firstn n l).
Proof.
  intros Hl. revert n. induction Hl as [|y l Hl IH Hy]; intros [|n]; simpl;
    try constructor; [by apply IH|].
  apply Forall_forall. intros z Hz%elem_of_take.
  destruct Hz as (i & Hz & _). rewrite Forall_forall in Hy.
  apply Hy. by apply list_elem_of_lookup_2 in Hz.
Qed.
End Ranking.

Lemma slice_to_length {A} (n : Z) (l : list A) :
  0 <= n -> Z.of_nat (length (slice_to n l)) = Z.min n (Z.of_nat (length l)).
Proof.
  intros Hn. unfold slice_to. destruct (Z.leb_spec 0 n); [|lia].
  rewrite length_firstn. lia.
Qed.

Lemma dd_update_absent {V} dflt (f : V -> V) k (d : dict V) :
  k ∉ keys d -> dd_update dflt f k d = (d ++ [(k, f dflt)])%list.
Proof.
  unfold keys. induction d as [|[k0 v] d IH]; [done|].
  cbn [map fst dd_update]. intros [Hk Hd]%not_elem_of_cons.
  destruct (String.eqb_spec k0 k); [congruence|]. by rewrite IH.
Qed.

Lemma fold_dict_set_NoDup {V} (items acc : dict V) :
  NoDup (keys (acc ++ items)%list) ->
  fold_left (fun d '(k, v) => dict_set k v d) items acc = (acc ++ items)%list.
Proof.
  revert acc. induction items as [|[k v] items IH]; intros acc Hnd; simpl.
  - by rewrite app_nil_r.
  - unfold dict_set at 2. rewrite dd_update_absent.
    + rewrite IH; rewrite <- app_assoc; done.
    + unfold keys in *. rewrite map_app in Hnd.
      apply NoDup_app in Hnd as (_ & Hdisj & _).
      intros Hk. apply (Hdisj k Hk). simpl. by left.
Qed.

Lemma dict_of_items_NoDup {V} (items : dict V) :
  NoDup (keys items) -> dict_of_items items = items.
Proof. intros Hnd. unfold dict_of_items. by rewrite fold_dict_set_NoDup. Qed.

Lemma slice_to_sublist {A} (n : Z) (l : list A) : sublist (slice_to n l) l.
Proof. unfold slice_to. destruct (0 <=? n); apply sublist_take. Qed.

Lemma sliced_sorted_keys_NoDup (all : dict PrefixDetail) (n : Z) :
  NoDup (keys all) ->
  NoDup (keys (slice_to n (sorted_prefix_details all))).
Proof.
  intros Hnd. unfold keys.
  assert (NoDup (map fst (sorted_prefix_details all))) as Hsorted.
  { unfold sorted_prefix_details.
    change (NoDup (fst <$> sorted_reverse
                     (fun item : string * PrefixDetail => TotalSize (snd item)) all)).
    by rewrite sorted_reverse_Permutation. }
  unfold slice_to. destruct (0 <=? n); rewrite <- firstn_map;
    (eapply sublist_NoDup; [exact Hsorted|apply sublist_take]).
Qed.

(** C8. For a top count [0 <= top_n] the ranking holds
    [min(top_n, number of prefixes)] items of the aggregates, in decreasing
    order of [TotalSize]; it is empty for [top_n = 0]. *)
Theorem top_prefix_details_ranked (all_prefix_details : dict PrefixDetail)
    (top_n : Z) :
  0 <= top_n ->
  NoDup (keys all_prefix_details) ->
  let ranked := top_prefix_details all_prefix_details top_n in
  Z.of_nat (length ranked) =
    Z.min top_n (Z.of_nat (length all_prefix_details)) /\
  StronglySorted by_size_desc ranked /\
  (forall item, item ∈ ranked -> item ∈ all_prefix_details) /\
  top_prefix_details all_prefix_details 0 = [].
Proof.
  intros Hn Hnd ranked. unfold ranked, top_prefix_details.
  rewrite !dict_of_items_NoDup by by apply sliced_sorted_keys_NoDup.
  repeat split.
  - rewrite slice_to_length by done. unfold sorted_prefix_details.
    by rewrite (Permutation_length (sorted_reverse_Permutation _ _)).
  - unfold slice_to. destruct (Z.leb_spec 0 top_n); [|lia].
    apply firstn_sorted, sorted_reverse_sorted.
  - intros item Hitem.
    pose proof (elem_of_sublist _ _ _ Hitem (slice_to_sublist _ _)) as Hin.
    unfold sorted_prefix_details in Hin.
    by rewrite (sorted_reverse_Permutation _ _) in Hin.
Qed.

Lemma top_prefix_details_ranked_witness :
  let ranked := top_prefix_details sample_prefix_details 2 in
  Z.of_nat (length ranked) =
    Z.min 2 (Z.of_nat (length sample_prefix_details)) /\
  StronglySorted by_size_desc ranked /\
  (forall item, item ∈ ranked -> item ∈ sample_prefix_details) /\
  top_prefix_details sample_prefix_details 0 = [].
Proof.
  apply (top_prefix_details_ranked sample_prefix_details 2).
  - lia.
  - apply (bool_decide_unpack _). vm_compute. exact I.
Defined.

(** ** Lifecycle matching *)

Lemma get_lifecycle_for_prefix_filter prefix policies :
  get_lifecycle_for_prefix prefix policies =
  List.filter (policy_selected prefix) policies.
Proof.
  unfold get_lifecycle_for_prefix.
  match goal with |- fold_left ?f _ _ = _ => set (step := f) end.
  assert (forall acc, fold_left step policies acc =
                      (acc ++ List.filter (policy_selected prefix) policies)%list)
    as H; [|by apply (H [])].
  induction policies as [|r policies IH]; intros acc; simpl.
  - by rewrite app_nil_r.
  - rewrite IH. unfold step at 1. unfold policy_selected.
    destruct (Filter r) as [f|]; [|by rewrite <- app_assoc].
    destruct (prefix_key_matches prefix (flt_Prefix f));
      [by rewrite <- app_assoc|]. simpl.
    by destruct (match flt_And f with Some _ => _ | None => _ end);
      rewrite <- ?app_assoc.
Qed.

Lemma prefix_key_matches_Some prefix key :
  prefix_key_matches prefix key = true <->
  exists p, key = Some p /\ exists rest, prefix = p ++ rest.
Proof.
  destruct key as [p|]; simpl.
  - rewrite startswith_app. split; [by eauto|].
    by intros (p' & [= <-] & H).
  - split; [done|]. by intros (p & ? & _).
Qed.

(** What the loop selects: the rules without the key ['Filter'], and the
    rules one of whose filter prefixes starts the prefix. *)
Lemma policy_selected_spec prefix rule :
  policy_selected prefix rule = true <->
  Filter rule = None \/
  exists p, p ∈ filter_prefixes rule /\ exists rest, prefix = p ++ rest.
Proof.
  unfold policy_selected, filter_prefixes.
  destruct (Filter rule) as [f|]; [|by split; auto].
  rewrite orb_true_iff. split.
  - intros [H|H]; right.
    + apply prefix_key_matches_Some in H as (p & -> & Hp).
      exists p. split; [|done]. apply elem_of_app. left. by left.
    + destruct (flt_And f) as [a|]; [|done].
      apply prefix_key_matches_Some in H as (p & Ha & Hp).
      exists p. split; [|done]. apply elem_of_app. right. simpl.
      rewrite Ha. by left.
  - intros [?|(p & Hin & Hp)]; [done|].
    apply elem_of_app in Hin as [Hin|Hin].
    + left. destruct (flt_Prefix f) as [q|]; [|by inversion Hin].
      apply list_elem_of_singleton in Hin as ->.
      apply prefix_key_matches_Some. by eauto.
    + right. destruct (flt_And f) as [a|]; [|by inversion Hin]. simpl in Hin.
      destruct (and_Prefix a) as [q|] eqn:Ha; [|by inversion Hin].
      apply list_elem_of_singleton in Hin as ->.
      apply prefix_key_matches_Some. by eauto.
Qed.

(** On rules whose filter, when present, holds a prefix, the loop selects
    the rules that apply. *)
Lemma policy_selected_applies prefix rule :
  ~ prefixless_filter rule ->
  policy_selected prefix rule = true <-> applies_to prefix rule.
Proof.
  intros Hwf. rewrite policy_selected_spec. unfold applies_to.
  split; intros [H|H]; auto.
  - left. unfold filter_prefixes. by rewrite H.
  - destruct (Filter rule) as [f|] eqn:Hf; [|by left].
    exfalso. apply Hwf. split; [by rewrite Hf|done].
Qed.

(** A rule whose filter holds no prefix is never selected. *)
Lemma prefixless_filter_not_selected prefix rule :
  prefixless_filter rule -> policy_selected prefix rule = false.
Proof.
  intros [[f Hf] Hnone]. apply not_true_is_false.
  intros [H|(p & Hin & _)]%policy_selected_spec; [congruence|].
  rewrite Hnone in Hin. by inversion Hin.
Qed.

(** C4. The matcher keeps the input order and returns the rules without a
    filter and the rules whose filter prefix starts the target prefix:
    [logs/] matches [logs/2024/] and not [images/].  A rule whose filter is
    empty has no filter prefix and so applies to every prefix, yet the code
    leaves it out: its loop has no branch for a filter without a prefix. *)
Theorem get_lifecycle_for_prefix_drops_empty_filter :
  applies_to "logs/2024/" rule_empty_filter /\
  get_lifecycle_for_prefix "logs/2024/"
    [rule_unfiltered; rule_empty_filter; rule_logs; rule_logs] =
    [rule_unfiltered; rule_logs; rule_logs] /\
  get_lifecycle_for_prefix "images/"
    [rule_unfiltered; rule_empty_filter; rule_logs; rule_logs] =
    [rule_unfiltered].
Proof. split; [by left|]. split; reflexivity. Qed.

(** C5. A rule whose filter is present and holds neither a simple prefix
    nor the prefix of an ['And'], here a tag filter, is matched for no
    prefix by the code, where it is to be matched for every prefix. *)
Theorem get_lifecycle_for_prefix_drops_prefixless_filter (prefix : string) :
  prefixless_filter rule_tag_filter /\
  get_lifecycle_for_prefix prefix [rule_tag_filter] = [].
Proof.
  split; [by split; [eexists|]|].
  rewrite get_lifecycle_for_prefix_filter. cbn [List.filter].
  by rewrite prefixless_filter_not_selected by by split; [eexists|].
Qed.

(** ** Lifecycle rows *)

Lemma summarize_lifecycle_rules_length bucket_name rules :
  length (summarize_lifecycle_rules bucket_name rules) = length rules.
Proof.
  unfold summarize_lifecycle_rules.
  match goal with |- length (fold_left ?f _ _) = _ => set (step := f) end.
  assert (forall acc, length (fold_left step rules acc) =
                      (length acc + length rules)%nat) as H; [|by apply (H [])].
  induction rules as [|r rules IH]; intros acc; simpl; [lia|].
  rewrite IH. unfold step at 1. rewrite length_app. simpl. lia.
Qed.

Lemma lifecycle_detail_rows_of_rule_length bucket_name rule :
  length (lifecycle_detail_rows_of_rule bucket_name rule) = rows_expected rule.
Proof.
  unfold lifecycle_detail_rows_of_rule, rows_expected, parse_lifecycle_rule.
  destruct (default [] (Transitions rule)) as [|t ts]; simpl; [done|].
  by rewrite !length_map.
Qed.

(** C9. For a rule with two transitions the summary of
    [all_details_bucket.py] holds one row, with the last transition, where
    two rows are expected; the rows of [lifecycle_rules.py] are two.  The
    summary holds one row per rule, whatever the transitions. *)
Theorem summarize_lifecycle_rules_one_row_per_rule :
  rows_expected rule_two_transitions = 2%nat /\
  summarize_lifecycle_rules "bucket" [rule_two_transitions] =
    [ {| row_Bucket := "bucket"; row_ID := Text "archive";
         row_Prefix := NA; row_Status := Text "Enabled";
         row_TransitionDays := Number 90; row_StorageClass := Text "GLACIER";
         row_ExpirationDays := Number 365; row_DeleteMarker := Text "No" |} ] /\
  length (lifecycle_detail_rows [("bucket", [rule_two_transitions])]) = 2%nat /\
  (forall bucket_name rules,
      length (summarize_lifecycle_rules bucket_name rules) = length rules).
Proof.
  repeat split; try reflexivity. apply summarize_lifecycle_rules_length.
Qed.

(** ** What the aggregator sums *)

Lemma size_where_cons test obj objects :
  size_where test (obj :: objects) =
  (if test obj then Size obj else 0) + size_where test objects.
Proof. unfold size_where. simpl. destruct (test obj); lia. Qed.

Lemma aggregate_step_global st obj sc :
  dict_get (fst (aggregate_step st obj)) sc =
  if has_class sc obj
  then Some (bytes_of (fst st) sc + Size obj)
  else dict_get (fst st) sc.
Proof.
  destruct st as [g pd]. unfold aggregate_step, has_class, storage_class_of.
  cbn [fst]. unfold dd_add. rewrite dict_get_dd_update.
  by destruct (String.eqb_spec (default "STANDARD" (obj_StorageClass obj)) sc)
    as [->|].
Qed.

Lemma aggregate_step_prefix st obj p :
  dict_get (snd (aggregate_step st obj)) p =
  if has_prefix p obj
  then Some (add_StorageClass (storage_class_of obj) (Size obj)
               (add_TotalSize (Size obj) (detail_of (snd st) p)))
  else dict_get (snd st) p.
Proof.
  destruct st as [g pd]. unfold aggregate_step, has_prefix. cbn [snd].
  rewrite dd_update_twice, dict_get_dd_update.
  by destruct (String.eqb_spec (prefix_path (Key obj)) p) as [->|].
Qed.

Lemma aggregate_step_bytes st obj sc :
  bytes_of (fst (aggregate_step st obj)) sc =
  bytes_of (fst st) sc + (if has_class sc obj then Size obj else 0).
Proof.
  unfold bytes_of at 1. rewrite aggregate_step_global.
  destruct (has_class sc obj); [done|]. fold (bytes_of (fst st) sc). lia.
Qed.

Lemma aggregate_step_detail st obj p :
  detail_of (snd (aggregate_step st obj)) p =
  if has_prefix p obj
  then add_StorageClass (storage_class_of obj) (Size obj)
         (add_TotalSize (Size obj) (detail_of (snd st) p))
  else detail_of (snd st) p.
Proof.
  unfold detail_of at 1. rewrite aggregate_step_prefix.
  by destruct (has_prefix p obj).
Qed.

Lemma fold_aggregate_step_present objects st sc p :
  let st' := fold_left aggregate_step objects st in
  (is_Some (dict_get (fst st') sc) <->
     is_Some (dict_get (fst st) sc) \/
     exists obj, obj ∈ objects /\ storage_class_of obj = sc) /\
  (is_Some (dict_get (snd st') p) <->
     is_Some (dict_get (snd st) p) \/
     exists obj, obj ∈ objects /\ prefix_path (Key obj) = p).
Proof.
  cbv zeta. revert st. induction objects as [|obj objects IH]; intros st;
    cbn [fold_left].
  - split; (split; [by left|]); intros [?|(obj & Hin & _)]; try done;
      by apply not_elem_of_nil in Hin.
  - destruct (IH (aggregate_step st obj)) as [IH1 IH2]. rewrite IH1, IH2.
    rewrite aggregate_step_global, aggregate_step_prefix.
    unfold has_class, has_prefix. split.
    + destruct (String.eqb_spec (storage_class_of obj) sc) as [Hsc|Hsc]; split.
      * intros _. right. exists obj. split; [by left|done].
      * intros _. by left.
      * intros [?|(o & Hin & Ho)]; [by left|]. right. exists o.
        split; [by right|done].
      * intros [?|(o & Hin & Ho)]; [by left|].
        apply elem_of_cons in Hin as [->|Hin]; [done|]. right. by exists o.
    + destruct (String.eqb_spec (prefix_path (Key obj)) p) as [Hp|Hp]; split.
      * intros _. right. exists obj. split; [by left|done].
      * intros _. by left.
      * intros [?|(o & Hin & Ho)]; [by left|]. right. exists o.
        split; [by right|done].
      * intros [?|(o & Hin & Ho)]; [by left|].
        apply elem_of_cons in Hin as [->|Hin]; [done|]. right. by exists o.
Qed.

Lemma fold_aggregate_step_sums objects st sc p :
  let st' := fold_left aggregate_step objects st in
  bytes_of (fst st') sc =
    bytes_of (fst st) sc + size_where (has_class sc) objects /\
  TotalSize (detail_of (snd st') p) =
    TotalSize (detail_of (snd st) p) + size_where (has_prefix p) objects /\
  bytes_of (StorageClass (detail_of (snd st') p)) sc =
    bytes_of (StorageClass (detail_of (snd st) p)) sc +
    size_where (fun obj => has_prefix p obj && has_class sc obj) objects.
Proof.
  cbv zeta. revert st. induction objects as [|obj objects IH]; intros st;
    cbn [fold_left].
  - unfold size_where. simpl. lia.
  - destruct (IH (aggregate_step st obj)) as (IH1 & IH2 & IH3).
    rewrite IH1, IH2, IH3, !size_where_cons.
    rewrite aggregate_step_bytes, aggregate_step_detail.
    destruct (has_prefix p obj); cbn [andb].
    + cbn [TotalSize StorageClass add_StorageClass add_TotalSize].
      rewrite bytes_of_dd_add.
      destruct (has_class sc obj) eqn:Hc; unfold has_class in Hc; rewrite Hc;
        lia.
    + lia.
Qed.

(** X1. The global bytes of a class are the sum of the sizes of the records
    of that class, a record without a storage class counting as STANDARD;
    a class is a key of the global map exactly when some record has it. *)
Theorem calculate_storage_class_data_global_bytes
    (objects : list ObjectRecord) (sc : string) :
  let storage_class_data := fst (calculate_storage_class_data objects) in
  (is_Some (dict_get storage_class_data sc) <->
     exists obj, obj ∈ objects /\ storage_class_of obj = sc) /\
  bytes_of storage_class_data sc = size_where (has_class sc) objects.
Proof.
  cbv zeta. unfold calculate_storage_class_data. split.
  - rewrite (proj1 (fold_aggregate_step_present objects ([], []) sc "")).
    split; [|by right]. intros [[? [=]]|?]; done.
  - rewrite (proj1 (fold_aggregate_step_sums objects ([], []) sc "")).
    unfold bytes_of. simpl. lia.
Qed.

(** X2. A prefix is a key of the per-prefix map exactly when some record
    has it; its [TotalSize] is the sum of the sizes of the records with that
    prefix, and its bytes of a class are the sum over the records with that
    prefix and class. *)
Theorem calculate_storage_class_data_prefix_bytes
    (objects : list ObjectRecord) (p sc : string) :
  let prefix_details := snd (calculate_storage_class_data objects) in
  (is_Some (dict_get prefix_details p) <->
     exists obj, obj ∈ objects /\ prefix_path (Key obj) = p) /\
  TotalSize (detail_of prefix_details p) = size_where (has_prefix p) objects /\
  bytes_of (StorageClass (detail_of prefix_details p)) sc =
    size_where (fun obj => has_prefix p obj && has_class sc obj) objects.
Proof.
  cbv zeta. unfold calculate_storage_class_data. split.
  - rewrite (proj2 (fold_aggregate_step_present objects ([], []) sc p)).
    split; [|by right]. intros [[? [=]]|?]; done.
  - destruct (fold_aggregate_step_sums objects ([], []) sc p) as (_ & -> & ->).
    unfold bytes_of. simpl. lia.
Qed.

(** ** More on prefixes *)

Lemma append_assoc (a b c : string) : (a ++ b) ++ c = a ++ b ++ c.
Proof.
  induction a as [|x a IH]; [done|].
  change (String x ((a ++ b) ++ c) = String x (a ++ b ++ c)). by rewrite IH.
Qed.

Lemma join_snoc sep segments name :
  segments <> [] ->
  join sep (segments ++ [name]) = join sep segments ++ sep ++ name.
Proof.
  induction segments as [|w ws IH]; [done|]. intros _.
  destruct ws as [|w' ws]; [done|].
  change (join sep ((w :: w' :: ws) ++ [name]))
    with (w ++ sep ++ join sep ((w' :: ws) ++ [name])).
  rewrite IH by done.
  change (join sep (w :: w' :: ws)) with (w ++ sep ++ join sep (w' :: ws)).
  by rewrite !append_assoc.
Qed.

Lemma lacks_app_sep c a b : ~ lacks c (a ++ String c b).
Proof.
  induction a as [|c' a IH]; intros H.
  - by destruct H as [H _].
  - destruct H as [_ H]. by apply IH.
Qed.

Lemma prefix_path_slash dir : prefix_path (dir ++ "/") = dir ++ "/".
Proof.
  unfold prefix_path. change (dir ++ "/") with (dir ++ String "/" "").
  rewrite split_app_sep. change (split "/" "") with [""].
  by rewrite removelast_last, join_split.
Qed.

(** X3. The prefix function is idempotent, and a key that ends with ['/']
    is its own prefix. *)
Theorem prefix_path_idempotent (key : string) :
  prefix_path (prefix_path key) = prefix_path key /\
  prefix_path (key ++ "/") = key ++ "/".
Proof.
  split; [|apply prefix_path_slash]. unfold prefix_path at 2 3.
  apply prefix_path_slash.
Qed.

(** X4. The prefix of a key starts the key exactly when the key holds a
    ['/']; the prefix ['/'] of a key without ['/'] does not start it. *)
Theorem prefix_path_startswith (key : string) :
  startswith key (prefix_path key) = true <-> ~ lacks "/" key.
Proof.
  destruct (split_snoc "/" key) as [segments [name Hs]].
  pose proof (join_split "/" key) as Hkey. rewrite Hs in Hkey.
  pose proof (split_segments_lack "/" key) as Hl. rewrite Hs in Hl.
  apply Forall_app in Hl as [_ Hname]. inversion_clear Hname as [|? ? Hname' _].
  unfold prefix_path. rewrite Hs, removelast_last.
  destruct segments as [|w ws].
  - simpl in Hkey. subst name. split; [|done].
    intros H%startswith_app. destruct H as [rest ->]. by destruct Hname'.
  - rewrite join_snoc in Hkey by done. split.
    + intros _. rewrite <- Hkey. apply lacks_app_sep.
    + intros _. apply startswith_app. exists name.
      rewrite <- Hkey. by rewrite !append_assoc.
Qed.

(** ** The invariants after merging *)

Lemma sum_values_cons k n (d : dict Z) :
  sum_values ((k, n) :: d) = n + sum_values d.
Proof. reflexivity. Qed.

Lemma sum_values_merge (total scd : dict Z) :
  sum_values (merge_storage_class_data total scd) =
  sum_values total + sum_values scd.
Proof.
  unfold merge_storage_class_data. revert total.
  induction scd as [|[sc n] scd IH]; intros total; cbn [fold_left].
  - change (sum_values []) with 0. lia.
  - rewrite IH, sum_values_dd_add, sum_values_cons. lia.
Qed.

Lemma bytes_of_merge (total scd : dict Z) sc :
  NoDup (keys scd) ->
  bytes_of (merge_storage_class_data total scd) sc =
  bytes_of total sc + bytes_of scd sc.
Proof.
  intros Hnd. unfold bytes_of. rewrite <- !contents_lookup.
  rewrite merge_storage_class_data_contents, merge_bytes_lookup by done.
  destruct (contents total !! sc), (contents scd !! sc); simpl; lia.
Qed.

Lemma fold_add_StorageClass (scl : dict Z) (d : PrefixDetail) :
  fold_left (fun d '(sc, size) => add_StorageClass sc size d) scl d =
  {| TotalSize := TotalSize d;
     StorageClass := merge_storage_class_data (StorageClass d) scl |}.
Proof.
  unfold merge_storage_class_data. revert d.
  induction scl as [|[sc n] scl IH]; intros d; cbn [fold_left].
  - by destruct d.
  - by rewrite IH.
Qed.

Lemma fold_add_class_dd_update p (scl : dict Z) (f : PrefixDetail -> PrefixDetail)
    (all : dict PrefixDetail) :
  fold_left
    (fun all '(sc, size) =>
       dd_update new_detail (add_StorageClass sc size) p all)
    scl (dd_update new_detail f p all) =
  dd_update new_detail
    (fun d => fold_left (fun d '(sc, size) => add_StorageClass sc size d)
                        scl (f d)) p all.
Proof.
  revert f. induction scl as [|[sc n] scl IH]; intros f; cbn [fold_left].
  - done.
  - by rewrite dd_update_twice, IH.
Qed.

Lemma dd_update_ext {V} dflt (f g : V -> V) k (d : dict V) :
  (forall v, f v = g v) -> dd_update dflt f k d = dd_update dflt g k d.
Proof.
  intros Hfg. induction d as [|[k0 v] d IH]; simpl; [by rewrite Hfg|].
  destruct (String.eqb k0 k); by rewrite ?Hfg, ?IH.
Qed.

Lemma merge_prefix_details_alt (all pd : dict PrefixDetail) :
  merge_prefix_details all pd =
  fold_left
    (fun all '(p, details) => dd_update new_detail (merge_detail details) p all)
    pd all.
Proof.
  unfold merge_prefix_details. revert all.
  induction pd as [|[p det] pd IH]; intros all; cbn [fold_left]; [done|].
  rewrite fold_add_class_dd_update, IH. f_equal. apply dd_update_ext.
  intros d. by rewrite fold_add_StorageClass.
Qed.

Lemma merge_detail_consistent details d :
  detail_consistent details -> detail_consistent d ->
  detail_consistent (merge_detail details d).
Proof.
  unfold detail_consistent, merge_detail. simpl. intros -> ->.
  by rewrite sum_values_merge.
Qed.

Lemma merge_prefix_details_consistent (all pd : dict PrefixDetail) :
  Forall (fun item => detail_consistent (snd item)) all ->
  Forall (fun item => detail_consistent (snd item)) pd ->
  Forall (fun item => detail_consistent (snd item))
         (merge_prefix_details all pd).
Proof.
  rewrite merge_prefix_details_alt. intros Hall Hpd. revert all Hall.
  induction Hpd as [|[p det] pd Hdet Hpd IH]; intros all Hall;
    cbn [fold_left]; [done|].
  apply IH. apply (Forall_dd_update detail_consistent); [|done|done].
  intros d Hd. by apply merge_detail_consistent.
Qed.

Lemma sum_over_merge_prefix_details (h : PrefixDetail -> Z)
    (all pd : dict PrefixDetail) :
  h new_detail = 0 ->
  Forall (fun item => forall d, h (merge_detail (snd item) d)
                                = h d + h (snd item)) pd ->
  sum_over h (merge_prefix_details all pd) = sum_over h all + sum_over h pd.
Proof.
  rewrite merge_prefix_details_alt. intros H0 Hpd. revert all.
  induction Hpd as [|[p det] pd Hdet Hpd IH]; intros all; cbn [fold_left].
  - simpl. lia.
  - rewrite IH, (sum_over_dd_update h (h det)) by done. simpl. lia.
Qed.

Lemma merge_batch_consistent st objects :
  aggregates_consistent st -> aggregates_consistent (merge_batch st objects).
Proof.
  intros (Hpd & Hg & Hsum). unfold merge_batch.
  pose proof (fold_aggregate_step_consistent objects ([], [])) as Hc.
  pose proof (calculate_storage_class_data_well_keyed objects) as Hk.
  fold (calculate_storage_class_data objects) in Hc.
  destruct (calculate_storage_class_data objects) as [g pd].
  destruct Hc as (Hpd' & Hg' & Hsum'); [by repeat split|].
  destruct Hk as (Hkg & Hkpd & Hkcls). simpl in *.
  repeat split; simpl.
  - by apply merge_prefix_details_consistent.
  - intros sc. rewrite bytes_of_merge, Hg, Hg' by done. symmetry.
    apply (sum_over_merge_prefix_details
             (fun d => bytes_of (StorageClass d) sc)); [done|].
    eapply Forall_impl; [exact Hkcls|]. intros [p det] Hnd d. simpl in *.
    by apply bytes_of_merge.
  - rewrite sum_values_merge, <- Hsum, <- Hsum'.
    apply sum_over_merge_prefix_details; [done|].
    apply Forall_forall. by intros [p det] _ d.
Qed.

(** X5. The totals that [main] holds after merging any batches keep the
    invariants of the aggregator: each prefix's [TotalSize] is the sum of
    its per-class bytes, the global bytes of a class are the sum of the
    class's bytes over the prefixes, and the prefix totals add up to the
    global bytes. *)
Theorem main_aggregate_invariants (batches : list (list ObjectRecord)) :
  let '(total_storage_class_data, all_prefix_details) :=
    main_aggregate batches in
  (forall prefix d, (prefix, d) ∈ all_prefix_details ->
     TotalSize d = sum_values (StorageClass d)) /\
  (forall sc, bytes_of total_storage_class_data sc =
     sum_over (fun d => bytes_of (StorageClass d) sc) all_prefix_details) /\
  sum_over TotalSize all_prefix_details = sum_values total_storage_class_data.
Proof.
  assert (aggregates_consistent (main_aggregate batches)) as H.
  { unfold main_aggregate.
    assert (aggregates_consistent ([], [])) as H0 by by repeat split.
    revert H0. generalize (([], []) : aggregates).
    induction batches as [|b batches IH]; intros st Hst; cbn [fold_left];
      [done|]. by apply IH, merge_batch_consistent. }
  destruct (main_aggregate batches) as [g pd].
  destruct H as (Hpd & Hg & Hsum). repeat split; [|done|done].
  intros prefix d Hin. rewrite Forall_forall in Hpd.
  by apply (Hpd (prefix, d)).
Qed.

(** ** More on the ranking *)

Lemma insert_desc_filter {A} (key : A -> Z) (k : Z) x (l : list A) :
  List.filter (fun y => key y =? k) (insert_desc key x l) =
  List.filter (fun y => key y =? k) (x :: l).
Proof.
  induction l as [|y l IH]; [done|]. cbn [insert_desc].
  destruct (Z.ltb_spec (key x) (key y)) as [Hlt|Hge]; [|done].
  cbn [List.filter] in *. rewrite IH.
  destruct (Z.eqb_spec (key x) k), (Z.eqb_spec (key y) k); try done. lia.
Qed.

Lemma sorted_reverse_filter {A} (key : A -> Z) (k : Z) (l : list A) :
  List.filter (fun y => key y =? k) (sorted_reverse key l) =
  List.filter (fun y => key y =? k) l.
Proof.
  induction l as [|x l IH]; [done|]. cbn [sorted_reverse fold_right].
  fold (sorted_reverse key l). rewrite insert_desc_filter.
  cbn [List.filter]. by rewrite IH.
Qed.

(** X6. The sort of the ranking is stable: the prefixes with one and the
    same [TotalSize] come in the order in which the dictionary holds them. *)
Theorem sorted_prefix_details_stable (all_prefix_details : dict PrefixDetail)
    (size : Z) :
  List.filter (fun item => TotalSize (snd item) =? size)
              (sorted_prefix_details all_prefix_details) =
  List.filter (fun item => TotalSize (snd item) =? size) all_prefix_details.
Proof. apply (sorted_reverse_filter (fun item => TotalSize (snd item))). Qed.

Lemma StronglySorted_app_le {A} (R : A -> A -> Prop) (l1 l2 : list A) a b :
  StronglySorted R (l1 ++ l2) -> a ∈ l1 -> b ∈ l2 -> R a b.
Proof.
  induction l1 as [|x l1 IH]; intros Hs Ha Hb; [by apply elem_of_nil in Ha|].
  cbn [app] in Hs. apply StronglySorted_inv in Hs as [Hs Hx].
  apply elem_of_cons in Ha as [->|Ha]; [|by apply IH].
  rewrite Forall_forall in Hx. apply Hx, elem_of_app. by right.
Qed.

(** X7. The ranking keeps the largest prefixes: for [0 <= top_n], a prefix
    of the aggregates that the ranking leaves out is no larger than any
    prefix it keeps; and when [top_n] is at least the number of prefixes,
    the ranking holds all of them. *)
Theorem top_prefix_details_largest (all_prefix_details : dict PrefixDetail)
    (top_n : Z) :
  0 <= top_n ->
  NoDup (keys all_prefix_details) ->
  let ranked := top_prefix_details all_prefix_details top_n in
  (forall kept left, kept ∈ ranked -> left ∈ all_prefix_details ->
     left ∉ ranked -> TotalSize (snd left) <= TotalSize (snd kept)) /\
  (Z.of_nat (length all_prefix_details) <= top_n ->
     Permutation ranked all_prefix_details).
Proof.
  intros Hn Hnd ranked. unfold ranked, top_prefix_details.
  rewrite !dict_of_items_NoDup by by apply sliced_sorted_keys_NoDup.
  unfold slice_to. destruct (Z.leb_spec 0 top_n) as [_|]; [|lia].
  set (sorted := sorted_prefix_details all_prefix_details).
  assert (Permutation sorted all_prefix_details) as Hperm
    by apply sorted_reverse_Permutation.
  split.
  - intros kept left Hkept Hleft Hout.
    rewrite <- Hperm, <- (firstn_skipn (Z.to_nat top_n) sorted) in Hleft.
    apply elem_of_app in Hleft as [?|Hleft]; [done|].
    apply (StronglySorted_app_le by_size_desc (firstn (Z.to_nat top_n) sorted)
             (skipn (Z.to_nat top_n) sorted) kept left); [|done|done].
    rewrite firstn_skipn. apply sorted_reverse_sorted.
  - intros Hlen. rewrite firstn_all2; [done|].
    rewrite (Permutation_length Hperm). lia.
Qed.

(** X8. A negative [top_n] raises nothing: the slice [[:top_n]] then drops
    the last [-top_n] items of the sorted list (all of them when there are
    fewer), so the ranking is the sorted list without its smallest
    [min(-top_n, number of prefixes)] items and holds
    [max(0, number of prefixes + top_n)] prefixes. *)
Theorem top_prefix_details_negative (all_prefix_details : dict PrefixDetail)
    (top_n : Z) :
  top_n < 0 ->
  NoDup (keys all_prefix_details) ->
  let ranked := top_prefix_details all_prefix_details top_n in
  exists dropped,
    sorted_prefix_details all_prefix_details = (ranked ++ dropped)%list /\
    Z.of_nat (length dropped) =
      Z.min (- top_n) (Z.of_nat (length all_prefix_details)) /\
    Z.of_nat (length ranked) =
      Z.max 0 (Z.of_nat (length all_prefix_details) + top_n) /\
    (forall kept left, kept ∈ ranked -> left ∈ dropped ->
       TotalSize (snd left) <= TotalSize (snd kept)).
Proof.
  intros Hn Hnd ranked. unfold ranked, top_prefix_details.
  rewrite dict_of_items_NoDup by by apply sliced_sorted_keys_NoDup.
  unfold slice_to. destruct (Z.leb_spec 0 top_n) as [|_]; [lia|].
  set (sorted := sorted_prefix_details all_prefix_details).
  assert (length sorted = length all_prefix_details) as Hlen
    by apply Permutation_length, sorted_reverse_Permutation.
  rewrite Hlen.
  set (n := (length all_prefix_details - Z.to_nat (- top_n))%nat).
  exists (skipn n sorted). split; [by rewrite firstn_skipn|].
  split; [rewrite length_skipn, Hlen; unfold n; lia|].
  split; [rewrite length_firstn, Hlen; unfold n; lia|].
  intros kept left Hkept Hleft.
  apply (StronglySorted_app_le by_size_desc (firstn n sorted)
           (skipn n sorted) kept left); [|done|done].
  rewrite firstn_skipn. apply sorted_reverse_sorted.
Qed.

(** ** More on lifecycle matching *)

Lemma filter_sublist_impl {A} (f g : A -> bool) (l : list A) :
  (forall x, f x = true -> g x = true) ->
  sublist (List.filter f l) (List.filter g l).
Proof.
  intros Hfg. induction l as [|x l IH]; simpl; [constructor|].
  destruct (f x) eqn:Hf.
  - rewrite (Hfg x Hf). by constructor.
  - destruct (g x); [by constructor|done].
Qed.

Lemma filter_sublist_self {A} (f : A -> bool) (l : list A) :
  sublist (List.filter f l) l.
Proof.
  induction l as [|x l IH]; simpl; [constructor|].
  destruct (f x); by constructor.
Qed.

(** X9. The matcher returns, in the order of the input and as often as the
    input holds them, the rules that have no key ['Filter'] and the rules
    one of whose filter prefixes starts the target prefix; it goes through
    the input rule by rule. *)
Theorem get_lifecycle_for_prefix_selects (prefix : string)
    (policies : list LifecycleRule) :
  sublist (get_lifecycle_for_prefix prefix policies) policies /\
  (forall rule, rule ∈ get_lifecycle_for_prefix prefix policies <->
     rule ∈ policies /\
     (Filter rule = None \/
      exists p, p ∈ filter_prefixes rule /\ exists rest, prefix = p ++ rest)) /\
  (forall more,
     get_lifecycle_for_prefix prefix (policies ++ more) =
     (get_lifecycle_for_prefix prefix policies ++
      get_lifecycle_for_prefix prefix more)%list).
Proof.
  split; [|split].
  - rewrite get_lifecycle_for_prefix_filter. apply filter_sublist_self.
  - intros rule. rewrite get_lifecycle_for_prefix_filter.
    by rewrite list_elem_of_In, filter_In, <- list_elem_of_In,
      policy_selected_spec.
  - intros more. rewrite !get_lifecycle_for_prefix_filter.
    apply List.filter_app.
Qed.

(** X10. Rules are inherited: every rule matched for a prefix is matched,
    in the same order, for each prefix that extends it. *)
Theorem get_lifecycle_for_prefix_inherited (prefix suffix : string)
    (policies : list LifecycleRule) :
  sublist (get_lifecycle_for_prefix prefix policies)
          (get_lifecycle_for_prefix (prefix ++ suffix) policies).
Proof.
  rewrite !get_lifecycle_for_prefix_filter. apply filter_sublist_impl.
  intros rule [H|(p & Hin & rest & ->)]%policy_selected_spec;
    apply policy_selected_spec; [by left|].
  right. exists p. split; [done|]. exists (rest ++ suffix).
  apply append_assoc.
Qed.

(** ** More on the lifecycle rows *)

Lemma summarize_lifecycle_rules_app bucket_name rules1 rules2 :
  summarize_lifecycle_rules bucket_name (rules1 ++ rules2) =
  (summarize_lifecycle_rules bucket_name rules1 ++
   summarize_lifecycle_rules bucket_name rules2)%list.
Proof.
  unfold summarize_lifecycle_rules.
  match goal with |- fold_left ?f _ _ = _ => set (step := f) end.
  assert (forall acc r, step acc r = (acc ++ step [] r)%list) as Hstep
    by reflexivity.
  assert (forall rules acc, fold_left step rules acc =
                            (acc ++ fold_left step rules [])%list) as H.
  { induction rules as [|r rules IH]; intros acc; cbn [fold_left].
    - by rewrite app_nil_r.
    - by rewrite IH, (IH (step [] r)), (Hstep acc r), app_assoc. }
  by rewrite fold_left_app, H.
Qed.

Lemma lifecycle_detail_rows_single bucket_name rules :
  lifecycle_detail_rows [(bucket_name, rules)] =
  flat_map (lifecycle_detail_rows_of_rule bucket_name) rules.
Proof. unfold lifecycle_detail_rows. simpl. by rewrite app_nil_r. Qed.

(** X11. On rules with at most one transition the summary of
    [all_details_bucket.py] and the rows of [lifecycle_rules.py] for the
    same bucket agree in every column but ['Delete Marker']. *)
Theorem summarize_agrees_with_detail_rows (bucket_name : string)
    (rules : list LifecycleRule) :
  Forall at_most_one_transition rules ->
  map without_delete_marker (summarize_lifecycle_rules bucket_name rules) =
  map without_delete_marker (lifecycle_detail_rows [(bucket_name, rules)]).
Proof.
  rewrite lifecycle_detail_rows_single.
  induction 1 as [|rule rules Hrule Hrules IH]; [done|].
  change (rule :: rules) with ([rule] ++ rules)%list.
  rewrite summarize_lifecycle_rules_app, flat_map_app, !map_app, IH.
  f_equal. clear IH Hrules.
  unfold at_most_one_transition in Hrule.
  unfold summarize_lifecycle_rules, lifecycle_detail_rows_of_rule,
    parse_lifecycle_rule. simpl.
  destruct (Transitions rule) as [[|t [|t' ts]]|]; simpl in *; try lia;
    by destruct (Expiration rule).
Qed.

(** X12. [lifecycle_rules.py] builds one row per transition of a rule and
    one row for a rule without transitions, and each row of a rule carries
    the bucket, the rule's id, its expiration days and its noncurrent
    days. *)
Theorem lifecycle_detail_rows_complete
    (bucket_details : dict (list LifecycleRule)) :
  length (lifecycle_detail_rows bucket_details) =
    rows_expected_total bucket_details /\
  (forall bucket_name rule row,
     row ∈ lifecycle_detail_rows_of_rule bucket_name rule ->
     row_Bucket row = bucket_name /\
     row_ID row = text_or_NA (ID rule) /\
     row_ExpirationDays row = number_or_NA (e ← Expiration rule; exp_Days e) /\
     row_DeleteMarker row =
       number_or_NA (d ← NoncurrentVersionExpiration rule;
                     nce_NoncurrentDays d)).
Proof.
  split.
  - unfold lifecycle_detail_rows, rows_expected_total.
    induction bucket_details as [|[b rules] bd IH]; [done|].
    cbn [flat_map fold_right snd]. rewrite length_app, IH. f_equal.
    clear IH. induction rules as [|r rules IH]; [done|].
    cbn [flat_map fold_right].
    by rewrite length_app, IH, lifecycle_detail_rows_of_rule_length.
  - intros bucket_name rule row.
    unfold lifecycle_detail_rows_of_rule, parse_lifecycle_rule.
    destruct (default [] (Transitions rule)) as [|t ts]; cbn [map].
    + by intros ->%list_elem_of_singleton.
    + intros [-> | Hin]%elem_of_cons; [done|].
      apply list_elem_of_In, in_map_iff in Hin as ([days class] & <- & _).
      done.
Qed.

(** ** Binary64 rounding stays in range *)

Lemma digits2_pos_bounds (p : positive) :
  2 ^ (Zpos (digits2_pos p) - 1) <= Zpos p < 2 ^ Zpos (digits2_pos p).
Proof.
  induction p as [p IH|p IH|]; cbn [digits2_pos].
  - rewrite Pos2Z.inj_succ, Z.pow_succ_r by lia.
    replace (Z.succ (Zpos (digits2_pos p)) - 1) with
      (Z.succ (Zpos (digits2_pos p) - 1)) by lia.
    rewrite Z.pow_succ_r by lia. lia.
  - rewrite Pos2Z.inj_succ, Z.pow_succ_r by lia.
    replace (Z.succ (Zpos (digits2_pos p)) - 1) with
      (Z.succ (Zpos (digits2_pos p) - 1)) by lia.
    rewrite Z.pow_succ_r by lia. lia.
  - simpl. lia.
Qed.

Lemma Zdigits2_nonneg (m : Z) : 0 <= Zdigits2 m.
Proof. destruct m; simpl; lia. Qed.

Lemma Zdigits2_le (m k : Z) : 0 <= m < 2 ^ k -> 0 <= k -> Zdigits2 m <= k.
Proof.
  intros [Hm Hk] Hk0. destruct m as [|p|p]; simpl; [lia| |lia].
  pose proof (digits2_pos_bounds p) as [Hlow _].
  apply Z.nlt_ge. intros Hlt.
  assert (2 ^ k <= 2 ^ (Zpos (digits2_pos p) - 1))
    by (apply Z.pow_le_mono_r; lia). lia.
Qed.

Lemma Zdigits2_lt_pow (m : Z) : 0 <= m -> m < 2 ^ Zdigits2 m.
Proof.
  intros Hm. destruct m as [|p|p]; simpl; [lia| |lia].
  apply digits2_pos_bounds.
Qed.

Lemma iter_pos_count {A} (f : A -> A) (Q : Z -> A -> Prop) :
  (forall j y, Q j y -> Q (j + 1) (f y)) ->
  forall p j x, Q j x -> Q (j + Zpos p) (SpecFloat.iter_pos f p x).
Proof.
  intros Hf. induction p as [p IH|p IH|]; intros j x Hx; cbn [SpecFloat.iter_pos].
  - replace (j + Zpos p~1) with (j + 1 + Zpos p + Zpos p) by lia.
    by apply IH, IH, Hf.
  - replace (j + Zpos p~0) with (j + Zpos p + Zpos p) by lia.
    by apply IH, IH.
  - by apply Hf.
Qed.

Lemma shr_1_m (mrs : shr_record) :
  0 <= shr_m mrs -> shr_m (shr_1 mrs) = shr_m mrs / 2.
Proof.
  destruct mrs as [m r s]. cbn [shr_m shr_1]. intros Hm.
  rewrite <- Z.div2_div. by destruct m as [|[p|p|]|p]; [| | | |lia].
Qed.

Lemma shr_m_iter (p : positive) (mrs : shr_record) :
  0 <= shr_m mrs ->
  shr_m (SpecFloat.iter_pos shr_1 p mrs) = shr_m mrs / 2 ^ Zpos p.
Proof.
  intros Hm.
  assert (0 <= 0 /\ shr_m mrs = shr_m mrs / 2 ^ 0) as H0
    by (split; [lia|by rewrite Z.div_1_r]).
  apply (iter_pos_count shr_1
    (fun j y => 0 <= j /\ shr_m y = shr_m mrs / 2 ^ j)) with (p := p) in H0.
  - by destruct H0 as [_ ->].
  - intros j y [Hj Hy]. split; [lia|].
    rewrite shr_1_m, Hy by (rewrite Hy; apply Z.div_pos; lia).
    rewrite Z.pow_add_r, Z.div_div by lia. done.
Qed.

Lemma shr_m_record_of_loc (m : Z) (l : location) :
  shr_m (shr_record_of_loc m l) = m.
Proof. by destruct l as [|[]]. Qed.

Lemma shr_spec (m e n : Z) (l : location) :
  0 <= m ->
  shr_m (fst (shr (shr_record_of_loc m l) e n)) = m / 2 ^ Z.max 0 n /\
  snd (shr (shr_record_of_loc m l) e n) = e + Z.max 0 n.
Proof.
  intros Hm. destruct n as [|p|p]; cbn [shr fst snd].
  - rewrite shr_m_record_of_loc, Z.div_1_r. lia.
  - rewrite shr_m_iter, shr_m_record_of_loc
      by by rewrite shr_m_record_of_loc.
    by rewrite Z.max_r by lia.
  - rewrite shr_m_record_of_loc, Z.div_1_r. lia.
Qed.

Lemma round_nearest_even_bounds (m : Z) (l : location) :
  m <= round_nearest_even m l <= m + 1.
Proof.
  unfold round_nearest_even. destruct l as [|[]]; try lia.
  destruct (Z.even m); lia.
Qed.

(** The digits of a shifted mantissa and its exponent. *)
Lemma shifted_digits (m e k : Z) :
  0 <= m -> 0 <= k ->
  Zdigits2 (m / 2 ^ k) + (e + k) <= Z.max (e + k) (Zdigits2 m + e).
Proof.
  intros Hm Hk. destruct (Z.le_gt_cases (Zdigits2 m) k) as [Hle|Hgt].
  - rewrite Z.div_small; [simpl; lia|]. split; [done|].
    eapply Z.lt_le_trans; [by apply Zdigits2_lt_pow|].
    apply Z.pow_le_mono_r; lia.
  - assert (Zdigits2 (m / 2 ^ k) <= Zdigits2 m - k); [|lia].
    apply Zdigits2_le; [|lia]. split; [apply Z.div_pos; lia|].
    apply Z.div_lt_upper_bound; [lia|].
    rewrite <- Z.pow_add_r by lia.
    replace (k + (Zdigits2 m - k)) with (Zdigits2 m) by lia.
    by apply Zdigits2_lt_pow.
Qed.

Lemma binary_round_aux_finite (sx : bool) (mx ex : Z) (lx : location) :
  0 <= mx -> ex <= 971 -> Zdigits2 mx + ex <= 1023 ->
  binary_round_aux prec emax sx mx ex lx = S754_zero sx \/
  exists m e, binary_round_aux prec emax sx mx ex lx = S754_finite sx m e.
Proof.
  intros Hmx Hex Hd. unfold binary_round_aux, shr_fexp.
  set (n1 := fexp prec emax (Zdigits2 mx + ex) - ex).
  pose proof (shr_spec mx ex n1 lx Hmx) as [Hm1 He1].
  destruct (shr (shr_record_of_loc mx lx) ex n1) as [mrs1 e1].
  cbn [fst snd] in Hm1, He1.
  set (m2 := round_nearest_even (shr_m mrs1) (loc_of_shr_record mrs1)).
  pose proof (round_nearest_even_bounds (shr_m mrs1) (loc_of_shr_record mrs1))
    as Hm2. fold m2 in Hm2.
  assert (0 <= shr_m mrs1) as Hm1pos by (rewrite Hm1; apply Z.div_pos; lia).
  set (n2 := fexp prec emax (Zdigits2 m2 + e1) - e1).
  pose proof (shr_spec m2 e1 n2 loc_Exact ltac:(lia)) as [Hm3 He3].
  destruct (shr (shr_record_of_loc m2 loc_Exact) e1 n2) as [mrs3 e3].
  cbn [fst snd] in Hm3, He3.
  assert (0 <= shr_m mrs3) as Hm3pos by (rewrite Hm3; apply Z.div_pos; lia).
  destruct (shr_m mrs3) as [|m|m]; [by left| |lia]. right.
  assert (e3 <= 971) as He3le; [|exists m, e3; by rewrite (proj2 (Z.leb_le _ _))].
  pose proof (shifted_digits mx ex (Z.max 0 n1) Hmx ltac:(lia)) as Hsh.
  rewrite <- Hm1, <- He1 in Hsh.
  assert (Zdigits2 m2 <= Zdigits2 (shr_m mrs1) + 1) as Hd2.
  { apply Zdigits2_le; [|pose proof (Zdigits2_nonneg (shr_m mrs1)); lia].
    split; [lia|]. rewrite Z.pow_add_r by (pose proof (Zdigits2_nonneg (shr_m mrs1)); lia).
    pose proof (Zdigits2_lt_pow (shr_m mrs1) Hm1pos). lia. }
  unfold fexp, SpecFloat.emin, prec, emax in *. lia.
Qed.

Lemma SFdiv_core_binary_spec (p q : positive) :
  exists lz,
    SFdiv_core_binary prec emax (Zpos p) 0 (Zpos q) 0 =
    (Zpos p *
     2 ^ (- Z.min (fexp prec emax (Zdigits2 (Zpos p) - Zdigits2 (Zpos q))) 0)
     / Zpos q,
     Z.min (fexp prec emax (Zdigits2 (Zpos p) - Zdigits2 (Zpos q))) 0, lz).
Proof.
  unfold SFdiv_core_binary. rewrite !Z.add_0_r.
  change (0 - 0) with 0.
  set (e' := Z.min _ 0).
  assert (e' <= 0) as He' by (unfold e'; lia).
  assert ((match 0 - e' with
           | Zpos _ => Z.shiftl (Zpos p) (0 - e')
           | Z0 => Zpos p
           | Zneg _ => 0
           end) = Zpos p * 2 ^ (- e')) as ->.
  { destruct (0 - e') as [|s|s] eqn:Hs.
    - replace (- e') with 0 by lia. lia.
    - rewrite Z.shiftl_mul_pow2 by lia. f_equal. f_equal. lia.
    - lia. }
  assert (fst (Z.div_eucl (Zpos p * 2 ^ (- e')) (Zpos q)) =
          Zpos p * 2 ^ (- e') / Zpos q) as Hq by reflexivity.
  destruct (Z.div_eucl (Zpos p * 2 ^ (- e')) (Zpos q)) as [qz r].
  cbn [fst] in Hq. rewrite Hq. by eexists.
Qed.

(** The quotient of two ints is a float, zero or positive, as long as it is
    below [2**1023]. *)
Lemma int_truediv_finite (a b : Z) :
  0 <= a -> 0 < b -> a < b * 2 ^ 1023 ->
  exists gb, int_truediv a b = Ok gb /\
    (gb = S754_zero false \/ exists m e, gb = S754_finite false m e).
Proof.
  intros Ha Hb Hab. unfold int_truediv.
  destruct (Z.eqb_spec b 0) as [|_]; [lia|].
  destruct b as [|q|q]; [lia| |lia].
  destruct a as [|p|p]; [by eexists; split; [|left]| |lia].
  cbn [exact_int SFdiv xorb].
  destruct (SFdiv_core_binary_spec p q) as [lz ->].
  set (ez := Z.min (fexp prec emax (Zdigits2 (Zpos p) - Zdigits2 (Zpos q))) 0).
  assert (ez <= 0) as Hez by (unfold ez; lia).
  set (mz := Zpos p * 2 ^ (- ez) / Zpos q).
  assert (mz = Zpos p * 2 ^ (- ez) / Zpos q) as Hmz by done. clearbody mz ez.
  assert (0 <= mz) as Hmz0
    by (rewrite Hmz; apply Z.div_pos; [apply Z.mul_nonneg_nonneg|]; lia).
  assert (Zdigits2 mz + ez <= 1023) as Hd.
  { assert (Zdigits2 mz <= 1023 - ez); [|lia].
    apply Zdigits2_le; [|lia]. split; [done|]. rewrite Hmz.
    apply Z.div_lt_upper_bound; [lia|].
    replace (1023 - ez) with (1023 + - ez) by lia.
    rewrite Z.pow_add_r by lia.
    assert (0 < 2 ^ (- ez)) by (apply Z.pow_pos_nonneg; lia). nia. }
  destruct (binary_round_aux_finite false mz ez lz Hmz0 ltac:(lia) Hd)
    as [->|(m & e & ->)]; eexists; (split; [done|]); [by left|right; eauto].
Qed.

(** ** The cost calculation *)

Lemma int_truediv_gigabytes (size : Z) :
  int_truediv size (1024 ^ 3) =
  if is_finite (gigabytes size) then Ok (gigabytes size)
  else Raise OverflowError.
Proof. reflexivity. Qed.

Lemma calculate_cost_fold (scd : dict Z) (acc : dict float) :
  NoDup (keys acc ++ keys scd)%list ->
  fold_left
    (fun acc '(storage_class, size) =>
       storage_class_cost ← acc;
       gb ← int_truediv size (1024 ^ 3);
       let cost := SFmul prec emax (cost_per_gb storage_class) gb in
       Ok (dict_set storage_class (py_round cost 2) storage_class_cost))
    scd (Ok acc) =
  if forallb (fun item => is_finite (gigabytes (snd item))) scd
  then Ok (acc ++ map (fun item => (fst item, class_cost (fst item) (snd item)))
                      scd)%list
  else Raise OverflowError.
Proof.
  match goal with |- _ -> fold_left ?f _ _ = _ => set (step := f) end.
  assert (forall acc sc size,
    step (Ok acc) (sc, size) =
    if is_finite (gigabytes size)
    then Ok (dict_set sc (class_cost sc size) acc)
    else Raise OverflowError) as Hstep.
  { intros acc' sc size. unfold step. unfold mbind, result_bind.
    rewrite int_truediv_gigabytes. by destruct (is_finite (gigabytes size)). }
  assert (forall l e, fold_left step l (Raise e) = Raise e) as Hraise.
  { induction l as [|[sc size] l IHl]; intros e; [done|]. apply IHl. }
  clearbody step.
  revert acc. induction scd as [|[sc size] scd IH]; intros acc Hnd;
    cbn [fold_left forallb map fst snd].
  - by rewrite app_nil_r.
  - rewrite Hstep. destruct (is_finite (gigabytes size)); cbn [andb];
      [|apply Hraise].
    unfold dict_set. rewrite dd_update_absent.
    + rewrite IH; [by rewrite <- app_assoc|].
      unfold keys in *. rewrite map_app, <- app_assoc. exact Hnd.
    + apply NoDup_app in Hnd as (_ & Hdisj & _).
      intros Hk. apply (Hdisj sc Hk). by left.
Qed.

Lemma calculate_cost_cases (scd : dict Z) :
  NoDup (keys scd) ->
  calculate_cost scd =
  if forallb (fun item => is_finite (gigabytes (snd item))) scd
  then Ok (map (fun item => (fst item, class_cost (fst item) (snd item))) scd)
  else Raise OverflowError.
Proof. intros Hnd. unfold calculate_cost. by rewrite calculate_cost_fold. Qed.

Lemma gigabytes_finite (size : Z) :
  0 <= size < 2 ^ 1053 ->
  gigabytes size = S754_zero false \/
  exists m e, gigabytes size = S754_finite false m e.
Proof.
  intros [H0 Hlt].
  destruct (int_truediv_finite size (1024 ^ 3)) as (gb & Hgb & Hcases);
    [done|done| |].
  - replace (2 ^ 1053) with (1024 ^ 3 * 2 ^ 1023) in Hlt; [done|].
    change (1024 ^ 3) with (2 ^ 30). rewrite <- Z.pow_add_r by lia. done.
  - rewrite int_truediv_gigabytes in Hgb.
    destruct (is_finite (gigabytes size)); [|done].
    injection Hgb as <-. done.
Qed.

(** X13. For classes of any names with byte counts from 0 up to, and not
    including, [2**1053], [calculate_cost] raises nothing and returns, class
    by class and in the order of its argument, the price per GB times
    [size / 2**30], rounded to two decimals. *)
Theorem calculate_cost_total (storage_class_data : dict Z) :
  NoDup (keys storage_class_data) ->
  Forall (fun item => 0 <= snd item < 2 ^ 1053) storage_class_data ->
  calculate_cost storage_class_data =
  Ok (map (fun item => (fst item, class_cost (fst item) (snd item)))
          storage_class_data).
Proof.
  intros Hnd Hsizes. rewrite calculate_cost_cases by done.
  rewrite (proj2 (forallb_forall _ _)); [done|].
  intros [sc size] Hin%list_elem_of_In. rewrite Forall_forall in Hsizes.
  destruct (gigabytes_finite size (Hsizes _ Hin)) as [H|(m & e & H)];
    cbn [snd]; by rewrite H.
Qed.

Lemma Zdigits2_pow_le (m : Z) : 0 < m -> 2 ^ (Zdigits2 m - 1) <= m.
Proof.
  intros Hm. destruct m as [|p|p]; [lia| |lia]. apply digits2_pos_bounds.
Qed.

Lemma Zdigits2_gt (m k : Z) : 0 <= k -> 2 ^ k <= m -> k < Zdigits2 m.
Proof.
  intros Hk Hm. assert (0 < 2 ^ k) by (apply Z.pow_pos_nonneg; lia).
  pose proof (Zdigits2_lt_pow m ltac:(lia)) as Hlt.
  pose proof (Zdigits2_nonneg m).
  apply Z.nle_gt. intros Hle.
  assert (2 ^ Zdigits2 m <= 2 ^ k) by (apply Z.pow_le_mono_r; lia). lia.
Qed.

Lemma shifted_positive (m k : Z) :
  0 < m -> 0 <= k <= Zdigits2 m - 1 -> 0 < m / 2 ^ k.
Proof.
  intros Hm Hk. apply Z.div_str_pos. split; [apply Z.pow_pos_nonneg; lia|].
  etransitivity; [|by apply Zdigits2_pow_le].
  apply Z.pow_le_mono_r; lia.
Qed.

Lemma binary_round_aux_overflow (sx : bool) (mx ex : Z) (lx : location) :
  0 < mx -> 1025 <= Zdigits2 mx + ex ->
  binary_round_aux prec emax sx mx ex lx = S754_infinity sx.
Proof.
  intros Hmx Hd. unfold binary_round_aux, shr_fexp.
  set (n1 := fexp prec emax (Zdigits2 mx + ex) - ex).
  pose proof (shr_spec mx ex n1 lx ltac:(lia)) as [Hm1 He1].
  destruct (shr (shr_record_of_loc mx lx) ex n1) as [mrs1 e1].
  cbn [fst snd] in Hm1, He1.
  assert (n1 = Zdigits2 mx - 53) as Hn1
    by (unfold n1, fexp, SpecFloat.emin, prec, emax; lia).
  assert (0 < shr_m mrs1) as Hm1pos.
  { rewrite Hm1. apply shifted_positive; [done|].
    pose proof (Zdigits2_gt mx 0 ltac:(lia) ltac:(simpl; lia)). lia. }
  set (m2 := round_nearest_even (shr_m mrs1) (loc_of_shr_record mrs1)).
  pose proof (round_nearest_even_bounds (shr_m mrs1) (loc_of_shr_record mrs1))
    as Hm2. fold m2 in Hm2.
  set (n2 := fexp prec emax (Zdigits2 m2 + e1) - e1).
  pose proof (shr_spec m2 e1 n2 loc_Exact ltac:(lia)) as [Hm3 He3].
  destruct (shr (shr_record_of_loc m2 loc_Exact) e1 n2) as [mrs3 e3].
  cbn [fst snd] in Hm3, He3.
  pose proof (Zdigits2_gt m2 0 ltac:(lia) ltac:(simpl; lia)) as Hd2.
  assert (n2 = Zdigits2 m2 - 53) as Hn2
    by (unfold n2, fexp, SpecFloat.emin, prec, emax; lia).
  assert (0 < shr_m mrs3) as Hm3pos
    by (rewrite Hm3; apply shifted_positive; lia).
  destruct (shr_m mrs3) as [|m|m]; [lia| |lia].
  destruct (Z.leb_spec e3 (emax - prec)) as [Hle|_]; [|done].
  unfold prec, emax in Hle. lia.
Qed.

Lemma gigabytes_overflow (size : Z) :
  2 ^ 1054 <= size -> gigabytes size = S754_infinity false.
Proof.
  intros Hsize. unfold gigabytes.
  assert (0 < 2 ^ 1054) by (apply Z.pow_pos_nonneg; lia).
  destruct size as [|p|p]; [lia| |lia].
  change (exact_int (1024 ^ 3)) with (S754_finite false (2 ^ 30) 0).
  cbn [exact_int SFdiv xorb].
  destruct (SFdiv_core_binary_spec p (2 ^ 30)) as [lz ->].
  change (Zdigits2 (Zpos (2 ^ 30))) with 31.
  change (Zpos (2 ^ 30)) with (2 ^ 30).
  pose proof (Zdigits2_gt (Zpos p) 1054 ltac:(lia) Hsize) as Hd.
  replace (Z.min (fexp prec emax (Zdigits2 (Zpos p) - 31)) 0) with 0
    by (unfold fexp, SpecFloat.emin, prec, emax; lia).
  change (2 ^ (- 0)) with 1. rewrite Z.mul_1_r.
  apply binary_round_aux_overflow.
  - apply Z.div_str_pos. lia.
  - assert (1024 < Zdigits2 (Zpos p / 2 ^ 30)); [|lia].
    apply Zdigits2_gt; [lia|]. apply Z.div_le_lower_bound; [lia|].
    rewrite <- Z.pow_add_r by lia. exact Hsize.
Qed.

(** X14. As soon as one class holds [2**1054] bytes or more,
    [calculate_cost] raises [OverflowError], from the division
    [size / (1024**3)] on ints. *)
Theorem calculate_cost_overflow (storage_class_data : dict Z)
    (storage_class : string) (size : Z) :
  (storage_class, size) ∈ storage_class_data ->
  2 ^ 1054 <= size ->
  calculate_cost storage_class_data = Raise OverflowError.
Proof.
  intros Hin Hsize. unfold calculate_cost.
  match goal with |- fold_left ?f _ _ = _ => set (step := f) end.
  assert (forall l e, fold_left step l (Raise e) = Raise e) as Hraise.
  { induction l as [|[sc sz] l IHl]; intros e; [done|]. apply IHl. }
  generalize (@nil (string * float)).
  induction storage_class_data as [|[sc sz] scd IH]; intros acc;
    [by apply elem_of_nil in Hin|].
  cbn [fold_left]. unfold step at 2. unfold mbind, result_bind.
  rewrite int_truediv_gigabytes.
  apply elem_of_cons in Hin as [[= <- <-]|Hin].
  - rewrite gigabytes_overflow by done. apply Hraise.
  - destruct (is_finite (gigabytes sz)); [by apply IH|apply Hraise].
Qed.

Lemma binary_round_aux_sign (sx : bool) (mx ex : Z) (lx : location) :
  match binary_round_aux prec emax sx mx ex lx with
  | S754_zero s | S754_finite s _ _ | S754_infinity s => s = sx
  | S754_nan => True
  end.
Proof.
  unfold binary_round_aux.
  destruct (shr_fexp prec emax mx ex lx) as [mrs1 e1].
  destruct (shr_fexp prec emax _ e1 loc_Exact) as [mrs3 e3].
  destruct (shr_m mrs3); [done| |done]. by destruct (Z.leb e3 _).
Qed.

Lemma gigabytes_sign (size : Z) :
  0 <= size -> is_finite (gigabytes size) = true ->
  gigabytes size = S754_zero false \/
  exists m e, gigabytes size = S754_finite false m e.
Proof.
  intros Hsize. unfold gigabytes.
  change (exact_int (1024 ^ 3)) with (S754_finite false (2 ^ 30) 0).
  destruct size as [|p|p]; [by left| |lia].
  cbn [exact_int SFdiv xorb].
  destruct (SFdiv_core_binary prec emax (Zpos p) 0 (Zpos (2 ^ 30)) 0)
    as [[mz ez] lz].
  pose proof (binary_round_aux_sign false mz ez lz) as Hs.
  destruct (binary_round_aux prec emax false mz ez lz) as [s|s| |s m e];
    try done; subst s; [by left|right; eauto].
Qed.

Lemma cost_per_gb_sign (storage_class : string) :
  cost_per_gb storage_class = S754_zero false \/
  exists m e, cost_per_gb storage_class = S754_finite false m e.
Proof.
  unfold cost_per_gb, STORAGE_CLASS_PRICING. cbn [dict_get].
  repeat (destruct (String.eqb _ storage_class);
          [right; vm_compute; eauto|]).
  by left.
Qed.

Lemma dict_get_map_NoDup {V W} (f : string -> V -> W) (d : dict V) k v :
  NoDup (keys d) -> (k, v) ∈ d ->
  dict_get (map (fun item => (fst item, f (fst item) (snd item))) d) k =
  Some (f k v).
Proof.
  unfold keys. induction d as [|[k0 v0] d IH]; intros Hnd Hin;
    [by apply elem_of_nil in Hin|].
  cbn [map fst snd dict_get] in *. apply NoDup_cons in Hnd as [Hk0 Hnd].
  apply elem_of_cons in Hin as [[= -> ->]|Hin].
  - by rewrite String.eqb_refl.
  - destruct (String.eqb_spec k0 k) as [->|_]; [|by apply IH].
    exfalso. apply Hk0. apply list_elem_of_In, in_map_iff.
    exists (k, v). split; [done|]. by apply list_elem_of_In.
Qed.

(** X15. When [calculate_cost] returns, a class that the pricing table does
    not hold costs [0.0], whatever its bytes, and so does every class with
    0 bytes. *)
Theorem calculate_cost_zero (storage_class_data : dict Z)
    (costs : dict float) (storage_class : string) (size : Z) :
  NoDup (keys storage_class_data) ->
  calculate_cost storage_class_data = Ok costs ->
  (storage_class, size) ∈ storage_class_data ->
  0 <= size ->
  dict_get STORAGE_CLASS_PRICING storage_class = None \/ size = 0 ->
  dict_get costs storage_class = Some (S754_zero false).
Proof.
  intros Hnd Hcosts Hin Hsize Hzero.
  rewrite calculate_cost_cases in Hcosts by done.
  destruct (forallb _ storage_class_data) eqn:Hfin; [|done].
  injection Hcosts as <-.
  rewrite (dict_get_map_NoDup class_cost _ _ size) by done. f_equal.
  rewrite forallb_forall in Hfin.
  pose proof (Hfin _ (proj1 (list_elem_of_In _ _) Hin)) as Hgb.
  cbn [snd] in Hgb. unfold class_cost.
  destruct Hzero as [Hunknown| ->].
  - unfold cost_per_gb. rewrite Hunknown. cbn [default exact_int].
    by destruct (gigabytes_sign size Hsize Hgb) as [->|(m & e & ->)].
  - change (gigabytes 0) with (S754_zero false).
    by destruct (cost_per_gb_sign storage_class) as [->|(m & e & ->)].
Qed.

(** C6. For classes of any names, known to the pricing table or not, and
    byte counts from 0 up to, and not including, [2**1053],
    [calculate_cost] raises nothing: it returns a cost for each class of
    its argument and for no other, the cost of a class is its price per GB
    times [size / 2**30] rounded to two decimals, and a class that the
    pricing table does not hold costs [0.0]. *)
Theorem calculate_cost_defined_below_overflow
    (storage_class_data : dict Z) :
  NoDup (keys storage_class_data) ->
  Forall (fun item => 0 <= snd item < 2 ^ 1053) storage_class_data ->
  exists storage_class_cost,
    calculate_cost storage_class_data = Ok storage_class_cost /\
    keys storage_class_cost = keys storage_class_data /\
    (forall storage_class size,
       (storage_class, size) ∈ storage_class_data ->
       dict_get storage_class_cost storage_class =
         Some (py_round (SFmul prec emax (cost_per_gb storage_class)
                           (SFdiv prec emax (exact_int size)
                              (exact_int (1024 ^ 3)))) 2) /\
       (dict_get STORAGE_CLASS_PRICING storage_class = None ->
        dict_get storage_class_cost storage_class =
          Some (S754_zero false))).
Proof.
  intros Hnd Hsizes. eexists. split; [|split].
  - rewrite calculate_cost_cases by done.
    rewrite (proj2 (forallb_forall _ _)); [done|].
    intros [sc size] Hin%list_elem_of_In. rewrite Forall_forall in Hsizes.
    destruct (gigabytes_finite size (Hsizes _ Hin)) as [H|(m & e & H)];
      cbn [snd]; by rewrite H.
  - unfold keys. rewrite map_map. by apply map_ext.
  - intros sc size Hin.
    rewrite (dict_get_map_NoDup class_cost _ _ size) by done.
    split; [done|]. intros Hunknown. f_equal. unfold class_cost, cost_per_gb.
    rewrite Hunknown. cbn [default exact_int].
    rewrite Forall_forall in Hsizes.
    by destruct (gigabytes_finite size (Hsizes _ Hin)) as [->|(m & e & ->)].
Qed.

(** With [2**1054] bytes in a class, [calculate_cost] raises. *)
Lemma calculate_cost_raises_counterexample :
  calculate_cost [("STANDARD", 2 ^ 1054)] = Raise OverflowError.
Proof. vm_compute. reflexivity. Qed.

(** ** The listing loops *)

Section Listing.
Context {A : Type} (s3 : list_call) (absorb : A -> ListResponse -> A).

Lemma token_argument_idemp (t : option string) :
  token_argument (token_argument t) = token_argument t.
Proof. by destruct t as [[|c s]|]. Qed.

Lemma listing_loop_token_argument fuel (ct : option string) (acc : A) :
  listing_loop s3 absorb fuel (token_argument ct) acc =
  listing_loop s3 absorb fuel ct acc.
Proof. destruct fuel; [done|]. simpl. by rewrite token_argument_idemp. Qed.

Lemma reads_normal token pages next :
  reads s3 token pages next ->
  token_argument token = token -> token_argument next = next.
Proof.
  induction 1 as [|token r c pages next Hr Ht Hc Hreads IH]; [done|].
  intros _. apply IH, token_argument_idemp.
Qed.

Lemma listing_loop_reads (ct : option string) pages next fuel (acc : A) :
  reads s3 (token_argument ct) pages next ->
  listing_loop s3 absorb (length pages + fuel) ct acc =
  listing_loop s3 absorb fuel next (fold_left absorb pages acc).
Proof.
  intros Hreads. remember (token_argument ct) as token eqn:Htoken.
  revert ct acc Htoken.
  induction Hreads as [|token r c pages next Hr Ht Hc Hreads IH];
    intros ct acc ->.
  - symmetry. apply listing_loop_token_argument.
  - cbn [length Nat.add listing_loop fold_left]. rewrite Hr, Ht, Hc.
    by apply IH.
Qed.

Lemma listing_loop_stops token (response : ListResponse) fuel (acc : A) :
  token_argument token = token ->
  s3 token = Some response -> final_page response ->
  listing_loop s3 absorb (S fuel) token acc = Some (absorb acc response).
Proof.
  intros Htok Hr Hfinal. cbn [listing_loop]. rewrite Htok, Hr.
  destruct Hfinal as [->|Hnone]; [done|]. rewrite Hnone.
  by destruct (default false (IsTruncated response)).
Qed.

Lemma listing_loop_raises token fuel (acc : A) :
  token_argument token = token -> s3 token = None ->
  listing_loop s3 absorb (S fuel) token acc = Some acc.
Proof. intros Htok Hr. cbn [listing_loop]. by rewrite Htok, Hr. Qed.

Lemma listing_loop_endless fuel ct (acc : A) :
  (forall token, exists response continuation,
      s3 token = Some response /\
      default false (IsTruncated response) = true /\
      NextContinuationToken response = Some continuation) ->
  listing_loop s3 absorb fuel ct acc = None.
Proof.
  intros Hs3. revert ct acc. induction fuel as [|fuel IH]; intros ct acc;
    [done|]. cbn [listing_loop].
  destruct (Hs3 (token_argument ct)) as (r & c & -> & -> & ->). apply IH.
Qed.
End Listing.

Lemma fold_extend_page_objects pages (objects : list ObjectRecord) :
  fold_left
    (fun objects response => (objects ++ default [] (Contents response))%list)
    pages objects =
  (objects ++ page_objects pages)%list.
Proof.
  unfold page_objects. revert objects.
  induction pages as [|r pages IH]; intros objects; cbn [fold_left map concat].
  - by rewrite app_nil_r.
  - by rewrite IH, app_assoc.
Qed.

(** X16. When the client serves a chain of truncated pages and then a
    page that is not truncated (or names no next token),
    [get_objects_data] returns the objects of all these pages, in the order
    served, none twice and none left out. *)
Theorem get_objects_data_complete (s3 : list_call)
    (pages : list ListResponse) (next : option string)
    (last : ListResponse) (fuel : nat) :
  reads s3 None pages next ->
  s3 next = Some last -> final_page last ->
  (length pages < fuel)%nat ->
  get_objects_data s3 fuel = Some (page_objects (pages ++ [last])).
Proof.
  intros Hreads Hlast Hfinal Hfuel. unfold get_objects_data.
  replace fuel with (length pages + S (fuel - S (length pages)))%nat by lia.
  rewrite (listing_loop_reads _ _ None pages next) by done.
  rewrite (listing_loop_stops _ _ next last); [|by eapply reads_normal|done..].
  rewrite fold_extend_page_objects. unfold page_objects.
  rewrite map_app, concat_app. simpl. by rewrite app_nil_r.
Qed.

(** X17. When a call of the client raises after a chain of pages,
    [get_objects_data] raises nothing and returns the objects of the pages
    read before. *)
Theorem get_objects_data_partial (s3 : list_call)
    (pages : list ListResponse) (next : option string) (fuel : nat) :
  reads s3 None pages next ->
  s3 next = None ->
  (length pages < fuel)%nat ->
  get_objects_data s3 fuel = Some (page_objects pages).
Proof.
  intros Hreads Hraise Hfuel. unfold get_objects_data.
  replace fuel with (length pages + S (fuel - S (length pages)))%nat by lia.
  rewrite (listing_loop_reads _ _ None pages next) by done.
  rewrite listing_loop_raises; [|by eapply reads_normal|done].
  by rewrite fold_extend_page_objects.
Qed.

(** X18. The loop has no bound of its own: with a client that answers every
    call with a truncated page and a next token, [get_objects_data] does
    not return, however many calls it makes. *)
Theorem get_objects_data_endless (s3 : list_call) (fuel : nat) :
  (forall token, exists response continuation,
      s3 token = Some response /\
      default false (IsTruncated response) = true /\
      NextContinuationToken response = Some continuation) ->
  get_objects_data s3 fuel = None.
Proof. intros Hs3. by apply listing_loop_endless. Qed.

Lemma fold_add_prefixes (l : list string) (prefixes : gset string) :
  fold_left (fun prefixes prefix => prefixes ∪ {[ prefix ]}) l prefixes =
  prefixes ∪ list_to_set l.
Proof.
  revert prefixes. induction l as [|p l IH]; intros prefixes;
    cbn [fold_left list_to_set].
  - by rewrite (right_id_L ∅ (∪)).
  - rewrite IH. by rewrite (assoc_L (∪)).
Qed.

Lemma fold_pages_prefixes pages (prefixes : gset string) :
  fold_left
    (fun prefixes response =>
       fold_left (fun prefixes prefix => prefixes ∪ {[ prefix ]})
                 (default [] (CommonPrefixes response)) prefixes)
    pages prefixes =
  prefixes ∪ list_to_set (page_prefixes pages).
Proof.
  unfold page_prefixes. revert prefixes.
  induction pages as [|r pages IH]; intros prefixes;
    cbn [fold_left map concat].
  - cbn [list_to_set]. by rewrite (right_id_L ∅ (∪)).
  - rewrite IH, fold_add_prefixes, list_to_set_app_L.
    by rewrite (assoc_L (∪)).
Qed.

(** X19. When the client serves a chain of truncated pages and then a
    final page, [list_all_prefixes] returns the set of the common prefixes
    of all these pages. *)
Theorem list_all_prefixes_complete (s3 : list_call)
    (pages : list ListResponse) (next : option string)
    (last : ListResponse) (fuel : nat) :
  reads s3 None pages next ->
  s3 next = Some last -> final_page last ->
  (length pages < fuel)%nat ->
  list_all_prefixes s3 fuel =
  Some (list_to_set (page_prefixes (pages ++ [last]))).
Proof.
  intros Hreads Hlast Hfinal Hfuel. unfold list_all_prefixes.
  replace fuel with (length pages + S (fuel - S (length pages)))%nat by lia.
  rewrite (listing_loop_reads _ _ None pages next) by done.
  rewrite (listing_loop_stops _ _ next last); [|by eapply reads_normal|done..].
  f_equal. rewrite fold_pages_prefixes, fold_add_prefixes.
  unfold page_prefixes. rewrite map_app, concat_app, list_to_set_app_L.
  cbn [map concat]. rewrite app_nil_r. by rewrite (left_id_L ∅ (∪)).
Qed.

Lemma listing_loop_fmap {A B} (f : A -> B) (s3 : list_call)
    (absorbA : A -> ListResponse -> A) (absorbB : B -> ListResponse -> B)
    fuel ct (a : A) :
  (forall a r, f (absorbA a r) = absorbB (f a) r) ->
  listing_loop s3 absorbB fuel ct (f a) =
  f <$> listing_loop s3 absorbA fuel ct a.
Proof.
  intros Hf. revert ct a. induction fuel as [|fuel IH]; intros ct a; [done|].
  cbn [listing_loop]. destruct (s3 (token_argument ct)) as [r|]; [|done].
  rewrite <- Hf. destruct (default false (IsTruncated r)); [|done].
  destruct (NextContinuationToken r); [apply IH|done].
Qed.

Lemma total_size_app l1 l2 :
  total_size (l1 ++ l2) = total_size l1 + total_size l2.
Proof.
  unfold total_size. induction l1 as [|obj l1 IH]; simpl; lia.
Qed.

Lemma fold_add_sizes (l : list ObjectRecord) (size : Z) :
  fold_left (fun size obj => size + Size obj) l size = size + total_size l.
Proof.
  unfold total_size. revert size.
  induction l as [|obj l IH]; intros size; simpl; [lia|]. rewrite IH. lia.
Qed.

Lemma convert_bytes_to_gb_tb_returns (size : Z) :
  0 <= size < 2 ^ 1053 -> exists text, convert_bytes_to_gb_tb size = Ok text.
Proof.
  intros Hsize. unfold convert_bytes_to_gb_tb.
  rewrite int_truediv_gigabytes.
  destruct (gigabytes_finite size Hsize) as [->|(m & e & ->)];
    cbn [is_finite mbind result_bind];
    match goal with |- context [if ?b then _ else _] => destruct b end;
    by eexists.
Qed.

Lemma convert_bytes_to_gb_tb_overflow (size : Z) :
  2 ^ 1054 <= size -> convert_bytes_to_gb_tb size = Raise OverflowError.
Proof.
  intros Hsize. unfold convert_bytes_to_gb_tb.
  by rewrite int_truediv_gigabytes, gigabytes_overflow.
Qed.

Lemma listed_size_total (s3 : list_call) (fuel : nat) :
  listing_loop s3
    (fun size response =>
       fold_left (fun size obj => size + Size obj)
                 (default [] (Contents response)) size)
    fuel None 0 =
  total_size <$> get_objects_data s3 fuel.
Proof.
  unfold get_objects_data.
  change 0 with (total_size []). apply listing_loop_fmap.
  intros objects r. by rewrite total_size_app, fold_add_sizes.
Qed.

(** X20. For one and the same client, [get_bucket_size] of [all_s3_top.py]
    ends its loop exactly when [get_objects_data] does, with the sum of the
    sizes of the objects that [get_objects_data] returns.  It returns that
    sum when it is below [2**1053] bytes; from [2**1054] bytes on it raises
    [OverflowError] instead, from [convert_bytes_to_gb_tb] in the [print]
    after the loop. *)
Theorem get_bucket_size_total (s3 : list_call) (fuel : nat) :
  (get_bucket_size s3 fuel = None <-> get_objects_data s3 fuel = None) /\
  (forall objects, get_objects_data s3 fuel = Some objects ->
     (0 <= total_size objects < 2 ^ 1053 ->
        get_bucket_size s3 fuel = Some (Ok (total_size objects))) /\
     (2 ^ 1054 <= total_size objects ->
        get_bucket_size s3 fuel = Some (Raise OverflowError))).
Proof.
  unfold get_bucket_size. rewrite listed_size_total.
  destruct (get_objects_data s3 fuel) as [objects|]; cbn [fmap option_fmap option_map].
  - split; [done|]. intros ? [= <-]. split; intros Hsize.
    + by destruct (convert_bytes_to_gb_tb_returns _ Hsize) as [text ->].
    + by rewrite convert_bytes_to_gb_tb_overflow.
  - split; [done|]. by intros.
Qed.

Lemma fold_aggregate_step_total objects st :
  let st' := fold_left aggregate_step objects st in
  sum_values (fst st') = sum_values (fst st) + total_size objects /\
  sum_over TotalSize (snd st') =
    sum_over TotalSize (snd st) + total_size objects.
Proof.
  cbv zeta. revert st. induction objects as [|obj objects IH]; intros st;
    cbn [fold_left].
  - unfold total_size. simpl. lia.
  - destruct (IH (aggregate_step st obj)) as [-> ->].
    destruct st as [g pd]. unfold aggregate_step. cbn [fst snd].
    rewrite sum_values_dd_add, dd_update_twice.
    rewrite (sum_over_dd_update TotalSize (Size obj)) by done.
    unfold total_size. simpl. lia.
Qed.

(** X21. The aggregator loses and adds no byte: the global per-class bytes
    add up to the bytes of all records, and so do the totals of the
    prefixes. *)
Theorem calculate_storage_class_data_conserves
    (objects : list ObjectRecord) :
  sum_values (fst (calculate_storage_class_data objects)) =
    total_size objects /\
  sum_over TotalSize (snd (calculate_storage_class_data objects)) =
    total_size objects.
Proof.
  unfold calculate_storage_class_data.
  destruct (fold_aggregate_step_total objects ([], [])) as [-> ->].
  by split.
Qed.

(** ** The ranking and the order of the dictionary *)

Lemma StronglySorted_unique {A} (R : A -> A -> Prop) (l1 l2 : list A) :
  (forall a b, R a b -> R b a -> False) ->
  StronglySorted R l1 -> StronglySorted R l2 -> Permutation l1 l2 ->
  l1 = l2.
Proof.
  intros Hanti Hs1. revert l2.
  induction Hs1 as [|a l1 Hs1 IH Ha]; intros l2 Hs2 Hperm.
  - by apply Permutation_nil in Hperm.
  - destruct Hs2 as [|b l2 Hs2 Hb];
      [by apply Permutation_sym, Permutation_nil in Hperm|].
    assert (a = b) as <-.
    { assert (a ∈ b :: l2) as Hin1 by (rewrite <- Hperm; by left).
      assert (b ∈ a :: l1) as Hin2 by (rewrite Hperm; by left).
      apply elem_of_cons in Hin1 as [?|Hin1]; [done|].
      apply elem_of_cons in Hin2 as [?|Hin2]; [done|].
      rewrite Forall_forall in Ha, Hb.
      destruct (Hanti a b); auto. }
    f_equal. apply IH; [done|]. by apply Permutation_cons_inv in Hperm.
Qed.

Lemma StronglySorted_strict {A} (key : A -> Z) (l : list A) :
  NoDup (map key l) ->
  StronglySorted (key_desc key) l ->
  StronglySorted (fun a b => key b < key a) l.
Proof.
  intros Hnd Hs. induction Hs as [|a l Hs IH Ha]; [constructor|].
  cbn [map] in Hnd. apply NoDup_cons in Hnd as [Hnotin Hnd].
  constructor; [by apply IH|].
  rewrite Forall_forall in Ha. apply Forall_forall. intros b Hb.
  assert (key b <> key a).
  { intros Heq. apply Hnotin. rewrite <- Heq.
    apply list_elem_of_In, in_map, list_elem_of_In, Hb. }
  pose proof (Ha b Hb) as Hle. unfold key_desc in Hle. lia.
Qed.

(** X22. When no two prefixes have the same [TotalSize], the sorted list of
    the ranking does not depend on the order in which the dictionary holds
    the prefixes. *)
Theorem sorted_prefix_details_order_independent
    (all1 all2 : dict PrefixDetail) :
  Permutation all1 all2 ->
  NoDup (map (fun item => TotalSize (snd item)) all1) ->
  sorted_prefix_details all1 = sorted_prefix_details all2.
Proof.
  intros Hperm Hnd. unfold sorted_prefix_details.
  set (key := fun item : string * PrefixDetail => TotalSize (snd item)).
  apply (StronglySorted_unique (fun a b => key b < key a)).
  - intros a b. lia.
  - apply StronglySorted_strict; [|apply sorted_reverse_sorted].
    change (NoDup (key <$> sorted_reverse key all1)).
    by rewrite sorted_reverse_Permutation.
  - apply StronglySorted_strict; [|apply sorted_reverse_sorted].
    change (NoDup (key <$> sorted_reverse key all2)).
    by rewrite sorted_reverse_Permutation, <- Hperm.
  - by rewrite !sorted_reverse_Permutation.
Qed.

(** ** [convert_size] works on the float nearest to the size *)





Section convert_size_facts.

Variable c_log : float -> float.
Variable log_of_huge : Z -> float.
Variable c_pow : float -> float -> float.
Variable float_str : float -> string.








End convert_size_facts.



(** ** Instances *)

Lemma top_prefix_details_largest_witness :
  let ranked := top_prefix_details sample_prefix_details 2 in
  (forall kept left, kept ∈ ranked -> left ∈ sample_prefix_details ->
     left ∉ ranked -> TotalSize (snd left) <= TotalSize (snd kept)) /\
  (Z.of_nat (length sample_prefix_details) <= 2 ->
     Permutation ranked sample_prefix_details).
Proof.
  apply (top_prefix_details_largest sample_prefix_details 2).
  - lia.
  - apply (bool_decide_unpack _). vm_compute. exact I.
Defined.

Lemma top_prefix_details_negative_witness :
  let ranked := top_prefix_details sample_prefix_details (-1) in
  exists dropped,
    sorted_prefix_details sample_prefix_details = (ranked ++ dropped)%list /\
    Z.of_nat (length dropped) =
      Z.min (- -1) (Z.of_nat (length sample_prefix_details)) /\
    Z.of_nat (length ranked) =
      Z.max 0 (Z.of_nat (length sample_prefix_details) + -1) /\
    (forall kept left, kept ∈ ranked -> left ∈ dropped ->
       TotalSize (snd left) <= TotalSize (snd kept)).
Proof.
  apply (top_prefix_details_negative sample_prefix_details (-1)).
  - lia.
  - apply (bool_decide_unpack _). vm_compute. exact I.
Defined.

Lemma summarize_agrees_with_detail_rows_witness :
  map without_delete_marker
      (summarize_lifecycle_rules "bucket" [rule_one_transition; rule_logs]) =
  map without_delete_marker
      (lifecycle_detail_rows [("bucket", [rule_one_transition; rule_logs])]).
Proof.
  apply (summarize_agrees_with_detail_rows "bucket"
           [rule_one_transition; rule_logs]).
  repeat constructor.
Defined.

Lemma calculate_cost_total_witness :
  calculate_cost [("STANDARD", 100); ("GLACIER", 924)] =
  Ok [("STANDARD", class_cost "STANDARD" 100);
      ("GLACIER", class_cost "GLACIER" 924)].
Proof.
  apply (calculate_cost_total [("STANDARD", 100); ("GLACIER", 924)]).
  - apply (bool_decide_unpack _). vm_compute. exact I.
  - repeat constructor; simpl; lia.
Defined.

Lemma calculate_cost_overflow_witness :
  calculate_cost [("STANDARD", 100); ("GLACIER", 2 ^ 1054)] =
  Raise OverflowError.
Proof.
  apply (calculate_cost_overflow _ "GLACIER" (2 ^ 1054)).
  - apply elem_of_cons. right. apply elem_of_cons. by left.
  - lia.
Defined.

Lemma calculate_cost_zero_witness :
  dict_get [("STANDARD", class_cost "STANDARD" (5 * 2 ^ 40));
            ("REDUCED_REDUNDANCY", class_cost "REDUCED_REDUNDANCY" (2 ^ 60))]
           "REDUCED_REDUNDANCY" = Some (S754_zero false).
Proof.
  apply (calculate_cost_zero
           [("STANDARD", 5 * 2 ^ 40); ("REDUCED_REDUNDANCY", 2 ^ 60)]
           _ "REDUCED_REDUNDANCY" (2 ^ 60)).
  - apply (bool_decide_unpack _). vm_compute. exact I.
  - vm_compute. reflexivity.
  - apply elem_of_cons. right. apply elem_of_cons. by left.
  - lia.
  - left. reflexivity.
Defined.

Lemma get_objects_data_complete_witness :
  get_objects_data two_page_client 3 = Some [obj_a1; obj_a2; obj_b1].
Proof.
  apply (get_objects_data_complete two_page_client
           [ {| Contents := Some [obj_a1; obj_a2]; CommonPrefixes := None;
                IsTruncated := Some true;
                NextContinuationToken := Some "t1" |} ]
           (Some "t1")
           {| Contents := Some [obj_b1]; CommonPrefixes := None;
              IsTruncated := Some false; NextContinuationToken := None |} 3).
  - eapply reads_cons; [reflexivity..|apply reads_nil].
  - reflexivity.
  - by left.
  - simpl. lia.
Defined.

Lemma get_objects_data_partial_witness :
  get_objects_data failing_client 3 = Some [obj_a1; obj_a2].
Proof.
  apply (get_objects_data_partial failing_client
           [ {| Contents := Some [obj_a1; obj_a2]; CommonPrefixes := None;
                IsTruncated := Some true;
                NextContinuationToken := Some "t1" |} ]
           (Some "t1") 3).
  - eapply reads_cons; [reflexivity..|apply reads_nil].
  - reflexivity.
  - simpl. lia.
Defined.

Lemma get_objects_data_endless_witness :
  get_objects_data endless_client 1000 = None.
Proof.
  apply (get_objects_data_endless endless_client 1000).
  intros token. by eexists _, _.
Defined.

Lemma list_all_prefixes_complete_witness :
  list_all_prefixes prefix_client 3 =
  Some (list_to_set ["a/"; "b/"; "b/"; "c/"]).
Proof.
  apply (list_all_prefixes_complete prefix_client
           [ {| Contents := None; CommonPrefixes := Some ["a/"; "b/"];
                IsTruncated := Some true;
                NextContinuationToken := Some "t1" |} ]
           (Some "t1")
           {| Contents := None; CommonPrefixes := Some ["b/"; "c/"];
              IsTruncated := None; NextContinuationToken := None |} 3).
  - eapply reads_cons; [reflexivity..|apply reads_nil].
  - reflexivity.
  - by left.
  - simpl. lia.
Defined.

Lemma sorted_prefix_details_order_independent_witness :
  sorted_prefix_details sample_prefix_details =
  sorted_prefix_details (rev sample_prefix_details).
Proof.
  apply (sorted_prefix_details_order_independent sample_prefix_details
           (rev sample_prefix_details)).
  - apply Permutation_rev.
  - apply (bool_decide_unpack _). vm_compute. exact I.
Defined.

Lemma get_bucket_size_total_witness :
  get_bucket_size two_page_client 3 = Some (Ok 2048).
Proof.
  apply (proj2 (get_bucket_size_total two_page_client 3)
           [obj_a1; obj_a2; obj_b1]).
  - reflexivity.
  - change (total_size [obj_a1; obj_a2; obj_b1]) with 2048. lia.
Defined.


Lemma calculate_cost_defined_below_overflow_witness :
  exists storage_class_cost,
    calculate_cost [("STANDARD", 100); ("ARCHIVE", 2 ^ 60)] =
      Ok storage_class_cost /\
    keys storage_class_cost = ["STANDARD"; "ARCHIVE"] /\
    (forall storage_class size,
       (storage_class, size) ∈ [("STANDARD", 100); ("ARCHIVE", 2 ^ 60)] ->
       dict_get storage_class_cost storage_class =
         Some (py_round (SFmul prec emax (cost_per_gb storage_class)
                           (SFdiv prec emax (exact_int size)
                              (exact_int (1024 ^ 3)))) 2) /\
       (dict_get STORAGE_CLASS_PRICING storage_class = None ->
        dict_get storage_class_cost storage_class =
          Some (S754_zero false))).
Proof.
  apply (calculate_cost_defined_below_overflow
           [("STANDARD", 100); ("ARCHIVE", 2 ^ 60)]).
  - apply (bool_decide_unpack _). vm_compute. exact I.
  - repeat constructor; simpl; lia.
Defined.
